(** * Package taiko of hive: Vault, wait primitives, Devnet, scheduler

    A shallow embedding of package [taiko] (helper.go, devnet.go, the Vault
    and the TestEnv/RunTests files) and the properties its specification
    states about them.

    Conventions of the embedding.
    - A Go [uint64] is a [Z] in [0, 2^64); [++] wraps around.
    - A Go function that can end the calling goroutine ([t.Fatal],
      [t.FailNow], [require.NoError]: hivesim's [FailNow] is
      [t.Fail(); runtime.Goexit()]) or panic returns an [outcome].
    - Everything the network answers (RPC results, which branch a [select]
      takes, what a started container reports) is an explicit input: the
      functions are deterministic in those answers and can be evaluated.
    - Effects that a claim speaks of (sleeping, starting a container,
      submitting a transaction, appending to a sequence) are recorded in a
      log the function returns. *)

From Stdlib Require Import ZArith Lia String.
From stdpp Require Import base option list gmap.

Local Open Scope Z_scope.

(** ** Errors and outcomes *)

(** Go [error] values the package produces or inspects.  [ErrWrap] is an
    error built with [%w], which [errors.Is] looks through. *)
Inductive error : Type :=
  | ErrNotFound                       (* ethereum.NotFound *)
  | ErrCanceled                       (* context.Canceled *)
  | ErrDeadlineExceeded               (* context.DeadlineExceeded *)
  | ErrRPC (code : Z)                 (* any other failure of an RPC call *)
  | ErrStatus (want got : Z)          (* "expected status %d, but got %d" *)
  | ErrWrap (msg : string) (inner : error).

(** [errors.Is(err, ethereum.NotFound)] for a non-nil [err]. *)
Fixpoint is_not_found (err : error) : bool :=
  match err with
  | ErrNotFound => true
  | ErrWrap _ inner => is_not_found inner
  | _ => false
  end.

(** [errors.Is(err, ethereum.NotFound)] for a possibly nil [err]. *)
Definition errors_Is_NotFound (err : option error) : bool :=
  match err with
  | None => false
  | Some e => is_not_found e
  end.

(** Why a goroutine was ended through [hivesim.T]. *)
Inductive failure : Type :=
  | Fatal (msg : string)                   (* t.Fatal / t.Fatalf *)
  | FatalErr (msg : string) (err : error)  (* t.Fatal(msg, err), t.Fatalf("..%v", err) *)
  | RequireNoError (err : error).          (* require.NoError(t, err), err non-nil *)

Inductive panic : Type :=
  | NilDereference
  | IndexOutOfRange
  | PanicMsg (msg : string).

(** How a call ends.  [Blocked]: the answers supplied so far do not let the
    call finish (it is still polling or waiting). *)
Inductive outcome (A : Type) : Type :=
  | Returned (a : A)
  | FailNow (f : failure)
  | Panicked (p : panic)
  | Blocked.
Arguments Returned {A} a.
Arguments FailNow {A} f.
Arguments Panicked {A} p.
Arguments Blocked {A}.

Definition uint64_max : Z := 2 ^ 64 - 1.
Definition wrap64 (x : Z) : Z := x mod 2 ^ 64.

(** ** Receipts and the wait primitives (helper.go) *)

Definition Hash := Z.
Definition Address := Z.

Record Receipt : Type := mkReceipt {
  Status : Z;        (* uint64 *)
  TxHash : Hash;
  BlockNumber : Z
}.

Definition ReceiptStatusFailed : Z := 0.
Definition ReceiptStatusSuccessful : Z := 1.

(** What [client.TransactionReceipt] hands back: a receipt pointer and an
    error, either of which may be nil. *)
Definition receipt_answer : Type := option Receipt * option error.

(** The error of a context that is done is never nil. *)
Inductive ctx_err : Type := Canceled | DeadlineExceeded.

Definition ctx_Err (c : ctx_err) : error :=
  match c with
  | Canceled => ErrCanceled
  | DeadlineExceeded => ErrDeadlineExceeded
  end.

(** Which case of [select { case <-ctx.Done(): ..; case <-ticker.C: .. }]
    fires. *)
Inductive select_case : Type :=
  | CtxDone (e : ctx_err)
  | Tick.

(** Period of the ticker of [WaitReceipt], in milliseconds. *)
Definition receipt_tick_ms : Z := 100.

(** [WaitReceipt(ctx, client, hash, status)].  [answers] are the successive
    results of [client.TransactionReceipt], [selects] the successive
    outcomes of the [select] statement.  The copies in helper.go and in the
    second file of the package are the same text. *)
Fixpoint WaitReceipt (status : Z) (answers : list receipt_answer)
    (selects : list select_case) : outcome receipt_answer :=
  match answers with
  | [] => Blocked
  | (receipt, err) :: answers' =>
    if errors_Is_NotFound err then
      match selects with
      | [] => Blocked
      | CtxDone e :: _ => Returned (None, Some (ctx_Err e))
      | Tick :: selects' => WaitReceipt status answers' selects'
      end
    else
      match err with
      | Some e => Returned (None, Some e)
      | None =>
        match receipt with
        | None => Panicked NilDereference       (* receipt.Status on nil *)
        | Some r =>
          if negb (Status r =? status)
          then Returned (Some r, Some (ErrStatus status (Status r)))
          else Returned (Some r, None)
        end
      end
  end.

Definition WaitReceiptOK := WaitReceipt ReceiptStatusSuccessful.
Definition WaitReceiptFailed := WaitReceipt ReceiptStatusFailed.

(** What [client.BlockNumber] hands back: a height and an error. *)
Definition height_answer : Type := Z * option error.

Definition block_poll_ms : Z := 500.

(** helper.go: [WaitBlock(ctx, t, client, n)].  The error of the height
    query goes to [require.NoError]; the function itself only ever returns
    nil.  The second component is the list of [time.Sleep] calls made, in
    milliseconds. *)
Module HelperGo.

Fixpoint WaitBlock (n : Z) (heights : list height_answer)
    : outcome (option error) * list Z :=
  match heights with
  | [] => (Blocked, [])
  | (height, err) :: heights' =>
    match err with
    | Some e => (FailNow (RequireNoError e), [])
    | None =>
      if height <? n then
        let '(res, sleeps) := WaitBlock n heights' in
        (res, block_poll_ms :: sleeps)
      else (Returned None, [])
    end
  end.

End HelperGo.

(** The second file of the package: [WaitBlock(ctx, client, n)] hands the
    error of the height query back to its caller. *)
Module DevnetGo.

Fixpoint WaitBlock (n : Z) (heights : list height_answer)
    : outcome (option error) * list Z :=
  match heights with
  | [] => (Blocked, [])
  | (height, err) :: heights' =>
    match err with
    | Some e => (Returned (Some e), [])
    | None =>
      if height <? n then
        let '(res, sleeps) := WaitBlock n heights' in
        (res, block_poll_ms :: sleeps)
      else (Returned None, [])
    end
  end.

End DevnetGo.

(** ** The Vault *)

Definition PrivateKey := Z.

Definition VaultAddr : Address := 0xf39fd6e51aad88f6f4ce6ab8827279cfffb92266.
Definition vaultKey : PrivateKey :=
  0xac0974bec39a17e36ba4a6b4d238ff944bacb478cbed5efcae784d7bf4f2ff80.
Definition GWei : Z := 1000000000.

(** [types.DynamicFeeTx], the fields [makeFundingTx] fills in. *)
Record DynamicFeeTx : Type := mkDynamicFeeTx {
  Nonce : Z;          (* uint64 *)
  Gas : Z;
  GasTipCap : Z;
  GasFeeCap : Z;
  To : Address;
  Value : Z
}.

(** A signed transaction: [tx.WithSignature] keeps the inner data. *)
Record Transaction : Type := mkTransaction {
  inner : DynamicFeeTx;
  signature : Z
}.

(** go-ethereum and the package variable [gasPrice], which the Vault file
    uses and does not declare. *)
Class Externals : Type := {
  PubkeyToAddress : PrivateKey -> Address;
  (* types.SignTx(tx, LatestSignerForChainID(chainID), key): a signature or an error *)
  SignTx : DynamicFeeTx -> Z -> PrivateKey -> error + Z;
  tx_Hash : Transaction -> Hash;
  gasPrice : Z
}.

Record Vault : Type := mkVault {
  chainID : Z;
  nonce : Z;                               (* uint64 *)
  accounts : gmap Address PrivateKey
}.

Definition NewVault (chain : Z) : Vault :=
  {| chainID := chain; nonce := 0; accounts := ∅ |}.

Section VaultOps.
Context `{Externals}.

(** [drawn] is what [crypto.GenerateKey] produced; the body after
    [v.mu.Lock()] is one atomic step. *)
Definition GenerateKey (drawn : error + PrivateKey) (v : Vault)
    : outcome Address * Vault :=
  match drawn with
  | inl _ => (Panicked (PanicMsg "can'T generate account key"), v)
  | inr key =>
    let addr := PubkeyToAddress key in
    (Returned addr,
     {| chainID := chainID v; nonce := nonce v;
        accounts := <[addr := key]> (accounts v) |})
  end.

Definition FindKey (addr : Address) (v : Vault) : option PrivateKey :=
  accounts v !! addr.

(** [nextNonce]: under the lock, read the counter and increment it. *)
Definition nextNonce (v : Vault) : Z * Vault :=
  let nonce0 := nonce v in
  (nonce0,
   {| chainID := chainID v; nonce := wrap64 (nonce v + 1);
      accounts := accounts v |}).

(** [makeFundingTx]: the third component is the transaction data handed to
    [types.NewTx], which exists whether or not signing succeeds. *)
Definition makeFundingTx (recipient : Address) (amount : Z) (v : Vault)
    : outcome Transaction * Vault * DynamicFeeTx :=
  let '(nonce0, v') := nextNonce v in
  let gasLimit := 75000 in
  let tx := {| Nonce := nonce0; Gas := gasLimit; GasTipCap := 1 * GWei;
               GasFeeCap := gasPrice; To := recipient; Value := amount |} in
  match SignTx tx (chainID v') vaultKey with
  | inl err => (FailNow (FatalErr "can'T sign vault funding tx:" err), v', tx)
  | inr sg => (Returned {| inner := tx; signature := sg |}, v', tx)
  end.

(** Effects of [CreateAccount] on the network and the clock. *)
Inductive vault_event : Type :=
  | EvSendTransaction (tx : Transaction)
  | EvTransactionReceipt (h : Hash)
  | EvSleep (ms : Z).

Definition receipt_poll_budget : nat := 60.
Definition receipt_poll_ms : Z := 1000.

(** The loop [for i := 0; i < 60; i++] of [CreateAccount]; [left] is
    [60 - i], [receipts i] the answer to the poll of round [i]. *)
Fixpoint poll_funding (address : Address) (h : Hash)
    (receipts : nat -> receipt_answer) (i left : nat)
    : outcome Address * list vault_event :=
  match left with
  | O => (FailNow (Fatal "timed out getting transaction receipt"), [])
  | S left' =>
    let '(receipt, err) := receipts i in
    let after_check :=
      match receipt with
      | Some _ => (Returned address, [EvTransactionReceipt h])
      | None =>
        let '(res, log) := poll_funding address h receipts (S i) left' in
        (res, EvTransactionReceipt h :: EvSleep receipt_poll_ms :: log)
      end in
    match err with
    | Some e =>
      if negb (is_not_found e)
      then (FailNow (FatalErr "error getting transaction receipt:" e),
            [EvTransactionReceipt h])
      else after_check
    | None => after_check
    end
  end.

(** [CreateAccount(ctx, client, amount)]; [amount = None] is a nil
    [*big.Int].  [send] is the result of [client.SendTransaction]. *)
Definition CreateAccount (amount : option Z) (drawn : error + PrivateKey)
    (send : option error) (receipts : nat -> receipt_answer) (v : Vault)
    : outcome Address * Vault * list vault_event :=
  let amount := match amount with None => 0 | Some a => a end in
  match GenerateKey drawn v with
  | (Returned address, v1) =>
    match makeFundingTx address amount v1 with
    | (Returned tx, v2, _) =>
      match send with
      | Some err =>
        (FailNow (FatalErr "unable to send funding transaction: %v" err), v2,
         [EvSendTransaction tx])
      | None =>
        let '(res, log) :=
          poll_funding address (tx_Hash tx) receipts 0 receipt_poll_budget in
        (res, v2, EvSendTransaction tx :: log)
      end
    | (FailNow f, v2, _) => (FailNow f, v2, [])
    | (Panicked p, v2, _) => (Panicked p, v2, [])
    | (Blocked, v2, _) => (Blocked, v2, [])
    end
  | (FailNow f, v1) => (FailNow f, v1, [])
  | (Panicked p, v1) => (Panicked p, v1, [])
  | (Blocked, v1) => (Blocked, v1, [])
  end.

(** *** Concurrent callers of one Vault

    Each thread runs [CreateAccount].  The two critical sections
    ([GenerateKey] and [nextNonce], both under [v.mu]) are atomic; the rest
    of [CreateAccount] (sending, polling) does not touch the Vault. *)
Inductive vthread : Type :=
  | VGenerateKey (drawn : error + PrivateKey) (amount : Z)
  | VMakeFundingTx (address : Address) (amount : Z)
  | VSend (address : Address) (tx : Transaction)
  | VStopped (made_tx : bool).

(** Has the thread been through [makeFundingTx]? *)
Definition made_tx (t : vthread) : bool :=
  match t with
  | VGenerateKey _ _ | VMakeFundingTx _ _ => false
  | VSend _ _ => true
  | VStopped b => b
  end.

Record vstate : Type := mkVstate {
  vs_vault : Vault;
  vs_threads : list vthread;
  vs_built : list DynamicFeeTx     (* in the order the lock was taken *)
}.

(** Thread [i] takes its next step. *)
Definition vstep (i : nat) (s : vstate) : vstate :=
  match vs_threads s !! i with
  | Some (VGenerateKey drawn amount) =>
    match GenerateKey drawn (vs_vault s) with
    | (Returned address, v') =>
      mkVstate v' (<[i := VMakeFundingTx address amount]> (vs_threads s))
               (vs_built s)
    | (_, v') =>
      mkVstate v' (<[i := VStopped false]> (vs_threads s)) (vs_built s)
    end
  | Some (VMakeFundingTx address amount) =>
    match makeFundingTx address amount (vs_vault s) with
    | (Returned tx, v', data) =>
      mkVstate v' (<[i := VSend address tx]> (vs_threads s))
               (vs_built s ++ [data])
    | (_, v', data) =>
      mkVstate v' (<[i := VStopped true]> (vs_threads s))
               (vs_built s ++ [data])
    end
  | _ => s
  end.

Definition vrun (sched : list nat) (s : vstate) : vstate :=
  foldl (fun s i => vstep i s) s sched.

(** [N] callers of [CreateAccount] about to start. *)
Definition vinit (v : Vault) (calls : list ((error + PrivateKey) * Z)) : vstate :=
  mkVstate v (map (fun c => VGenerateKey (fst c) (snd c)) calls) [].

End VaultOps.

(** ** The Devnet (devnet.go) *)

(** A started container ([*hivesim.Client]). *)
Definition container := Z.

Record ClientDefinition : Type := mkClientDefinition { Name : string }.

Record ClientsByRole : Type := mkClientsByRole {
  L1 : list ClientDefinition;
  L2 : list ClientDefinition;
  Driver : list ClientDefinition;
  Proposer : list ClientDefinition;
  Prover : list ClientDefinition;
  Contract : option ClientDefinition
}.

Record ELNode : Type := mkELNode {
  el_client : container;
  el_rollup : Address
}.

Record ProverNode : Type := mkProverNode { prover_client : container }.

(** The part of [Config] these operations read. *)
Record Config : Type := mkConfig {
  L1RollupAddress : Address;
  L2RollupAddress : Address;
  L2ProverAddress : Address
}.

Record Devnet : Type := mkDevnet {
  c : Config;
  clients : ClientsByRole;
  l1Engines : list ELNode;
  l2Engines : list ELNode;
  provers : list ProverNode
}.

(** The parameters a container is started with, as far as they say what
    the container acts on. *)
Inductive start_params : Type :=
  | ParamsL1
  | ParamsProver (l1 l2 : ELNode)
  | ParamsContract (l1Node : ELNode).    (* envTaikoMainnetUrl *)

Inductive devnet_event : Type :=
  | EvStartClient (name : string) (p : start_params) (cl : container)
  | EvChainID (n : ELNode)
  | EvExec (cl : container) (cmd : string)
  | EvWhitelistProver (prover : Address) (tx : Hash)
  | EvWaitReceipt (tx : Hash)
  | EvAppendL1 (n : ELNode)
  | EvAppendProver (n : ProverNode)
  | EvLog (msg : string)
  | EvLogNode (msg : string) (n : ELNode).   (* a message formatted with a node *)

(** Devnet operations: they read and update the Devnet, may end the test,
    and leave a log. *)
Definition M (A : Type) : Type :=
  Devnet -> outcome A * Devnet * list devnet_event.

Definition ret {A} (a : A) : M A := fun d => (Returned a, d, []).

Definition bind {A B} (m : M A) (k : A -> M B) : M B := fun d =>
  match m d with
  | (Returned a, d', log) =>
    let '(res, d'', log') := k a d' in (res, d'', log ++ log')
  | (FailNow f, d', log) => (FailNow f, d', log)
  | (Panicked p, d', log) => (Panicked p, d', log)
  | (Blocked, d', log) => (Blocked, d', log)
  end.

Notation "'do' x <- m ; k" := (bind m (fun x => k))
  (at level 10, x name, m at level 100, k at level 200).
Notation "m ;; k" := (bind m (fun _ => k))
  (at level 100, k at level 200, right associativity).

Definition get : M Devnet := fun d => (Returned d, d, []).
Definition put (d' : Devnet) : M unit := fun _ => (Returned tt, d', []).
Definition emit (e : devnet_event) : M unit := fun d => (Returned tt, d, [e]).
Definition fatal {A} (f : failure) : M A := fun d => (FailNow f, d, []).
Definition throw {A} (p : panic) : M A := fun d => (Panicked p, d, []).

(** [d.t.StartClient(name, opts...)]: hivesim fails the test when the
    container cannot be started ([started = None]). *)
Definition StartClient (name : string) (p : start_params)
    (started : option container) : M container :=
  match started with
  | None => fatal (Fatal "client launch failed")
  | Some cl => emit (EvStartClient name p cl) ;; ret cl
  end.

(** helper.go: [WaitELNodesUp(ctx, t, node, timeout)]. *)
Definition WaitELNodesUp (n : ELNode) (chain_id : option error) : M unit :=
  emit (EvChainID n) ;;
  match chain_id with
  | Some err => fatal (FatalErr "engine node %s should be up within %v,err=%v" err)
  | None => ret tt
  end.

Record ExecInfo : Type := mkExecInfo { ExitCode : Z }.

(** What the network answers during one [AddL1ELNode]. *)
Record l1_answers : Type := mkL1Answers {
  start_l1 : option container;
  chain_id : option error;
  start_contract : option container;
  exec_deploy : option ExecInfo * option error
}.

Definition deployL1Contracts (l1Node : ELNode) (a : l1_answers) : M unit :=
  do d <- get;
  match Contract (clients d) with
  | None => fatal (Fatal "no taiko protocol client types found")
  | Some def =>
    do n <- StartClient (Name def) (ParamsContract l1Node) (start_contract a);
    emit (EvExec n "deploy.sh") ;;
    let '(result, err) := exec_deploy a in
    match err with
    | Some e =>
      fatal (FatalErr "failed to deploy contract on engine node %s, error: %v, result: %v" e)
    | None =>
      match result with
      | None => throw NilDereference          (* result.ExitCode on nil *)
      | Some r =>
        if negb (ExitCode r =? 0)
        then fatal (Fatal "failed to deploy contract on engine node %s, error: %v, result: %v")
        else emit (EvLogNode "Deploy contracts on %s %s(%s)" l1Node)
      end
    end
  end.

Definition append_l1 (n : ELNode) : M unit :=
  do d <- get;
  put {| c := c d; clients := clients d;
         l1Engines := l1Engines d ++ [n]; l2Engines := l2Engines d;
         provers := provers d |} ;;
  emit (EvAppendL1 n).

Definition AddL1ELNode (Idx : nat) (a : l1_answers) : M ELNode :=
  do d <- get;
  if (length (L1 (clients d)) =? 0)%nat
  then fatal (Fatal "no eth1 client types found")
  else
    match L1 (clients d) !! Idx with
    | None => throw IndexOutOfRange
    | Some def =>
      do cl <- StartClient (Name def) ParamsL1 (start_l1 a);
      let n := {| el_client := cl; el_rollup := L1RollupAddress (c d) |} in
      WaitELNodesUp n (chain_id a) ;;
      deployL1Contracts n a ;;
      append_l1 n ;;
      ret n
    end.

Definition GetL1ELNode (idx : Z) (d : Devnet) : outcome ELNode :=
  if (idx <? 0) || (idx >=? Z.of_nat (length (l1Engines d)))
  then FailNow (Fatal "only have %d L1 nodes, cannot find %d")
  else
    match l1Engines d !! Z.to_nat idx with
    | Some n => Returned n
    | None => Panicked IndexOutOfRange
    end.

(** What the network answers during one [AddProverNode]. *)
Record prover_answers : Type := mkProverAnswers {
  new_taiko_client : option error;       (* bindings.NewTaikoL1Client *)
  new_transactor : option error;         (* bind.NewKeyedTransactorWithChainID *)
  whitelist_prover : error + Hash;       (* taikoL1.WhitelistProver *)
  wait_receipt : receipt_answer;         (* rpc.WaitReceipt of taiko-client *)
  start_prover : option container
}.

(** [addWhitelist]: the error it returns, unless it ends the test itself. *)
Definition addWhitelist (a : prover_answers) : M (option error) :=
  do d <- get;
  match new_taiko_client a with
  | Some err => ret (Some err)
  | None =>
    match new_transactor a with
    | Some err => ret (Some err)
    | None =>
      match whitelist_prover a with
      | inl err => ret (Some err)
      | inr tx =>
        emit (EvWhitelistProver (L2ProverAddress (c d)) tx) ;;
        emit (EvWaitReceipt tx) ;;
        let '(receipt, err) := wait_receipt a in
        match err with
        | Some e => ret (Some e)
        | None =>
          match receipt with
          | None => throw NilDereference        (* receipt.Status on nil *)
          | Some r =>
            if negb (Status r =? ReceiptStatusSuccessful)
            then fatal (Fatal "Failed to commit transactions list")
            else emit (EvLog "Add prover to whitelist finished") ;; ret None
          end
        end
      end
    end
  end.

Definition append_prover (n : ProverNode) : M unit :=
  do d <- get;
  put {| c := c d; clients := clients d;
         l1Engines := l1Engines d; l2Engines := l2Engines d;
         provers := provers d ++ [n] |} ;;
  emit (EvAppendProver n).

Definition AddProverNode (l1 l2 : ELNode) (a : prover_answers) : M ProverNode :=
  do d <- get;
  if (length (Prover (clients d)) =? 0)%nat
  then fatal (Fatal "no taiko prover client types found")
  else
    do err <- addWhitelist a;
    match err with
    | Some e => fatal (FatalErr "add whitelist failed, err=%v" e)
    | None =>
      match Prover (clients d) !! 0%nat with
      | None => throw IndexOutOfRange
      | Some def =>
        do cl <- StartClient (Name def) (ParamsProver l1 l2) (start_prover a);
        let n := {| prover_client := cl |} in
        append_prover n ;;
        ret n
      end
    end.

(** ** TestEnv and its timeout contexts *)

(** Contexts live in a table; a context is named by its index.  A cancel
    function is named by the context it cancels. *)
Record ctx_state : Type := mkCtx {
  ctx_parent : option nat;
  ctx_timeout : Z;                 (* milliseconds *)
  ctx_cancelled : bool
}.

Abbreviation ctx_table := (list ctx_state).

Definition set_cancelled (s : ctx_state) : ctx_state :=
  {| ctx_parent := ctx_parent s; ctx_timeout := ctx_timeout s;
     ctx_cancelled := true |}.

(** Calling the cancel function of context [i]. *)
Definition cancel (i : nat) (w : ctx_table) : ctx_table := alter set_cancelled i w.

Definition context_WithTimeout (parent : nat) (timeout : Z) (w : ctx_table)
    : nat * ctx_table :=
  (length w,
   w ++ [{| ctx_parent := Some parent; ctx_timeout := timeout;
            ctx_cancelled := false |}]).

Definition is_cancelled (i : nat) (w : ctx_table) : bool :=
  match w !! i with
  | Some s => ctx_cancelled s
  | None => false
  end.

(** The fields of [TestEnv] that [Ctx] and [TimeoutCtx] use; a nil
    [lastCtx] or [lastCancel] is [None]. *)
Record TestEnv : Type := mkTestEnv {
  Context : nat;
  Net : option Devnet;
  lastCtx : option nat;
  lastCancel : option nat
}.

Definition RPCTimeout : Z := 10 * 1000.

Definition TimeoutCtx (timeout : Z) (t : TestEnv) (w : ctx_table)
    : outcome nat * TestEnv * ctx_table :=
  let cancelled : outcome ctx_table :=
    match lastCtx t with
    | Some _ =>
      match lastCancel t with
      | Some k => Returned (cancel k w)
      | None => Panicked NilDereference        (* calling a nil func *)
      end
    | None => Returned w
    end in
  match cancelled with
  | Returned w1 =>
    let '(ctx, w2) := context_WithTimeout (Context t) timeout w1 in
    (Returned ctx,
     {| Context := Context t; Net := Net t;
        lastCtx := Some ctx; lastCancel := Some ctx |},
     w2)
  | FailNow f => (FailNow f, t, w)
  | Panicked p => (Panicked p, t, w)
  | Blocked => (Blocked, t, w)
  end.

Definition Ctx (t : TestEnv) (w : ctx_table) := TimeoutCtx RPCTimeout t w.

(** ** The scheduler RunTests *)

(** [semaphore.Weighted] of golang.org/x/sync: [cur] permits out of [size]
    are taken. *)
Record Weighted : Type := mkWeighted { size : Z; cur : Z }.

Definition NewWeighted (n : Z) : Weighted := {| size := n; cur := 0 |}.

(** [s.Acquire(ctx, 1)]: [None] while the caller has to wait; otherwise the
    error returned and the semaphore afterwards. *)
Definition Acquire (ctx_done : bool) (s : Weighted)
    : option (option error * Weighted) :=
  if size s - cur s >=? 1
  then Some (None, {| size := size s; cur := cur s + 1 |})
  else if ctx_done then Some (Some ErrCanceled, s) else None.

Definition Release (s : Weighted) : Weighted :=
  {| size := size s; cur := cur s - 1 |}.

(** Where the goroutine of one test stands in the body of
    [go func(test *TestSpec) { ... }(test)]. *)
Inductive task_pc : Type :=
  | PcAcquire1            (* require.NoError(t, s.Acquire(ctx, 1)) *)
  | PcDefer               (* defer s.Release(1) *)
  | PcNewEnv              (* env := &TestEnv{...} *)
  | PcAcquire2            (* require.NoError(t, s.Acquire(ctx, 1)) *)
  | PcRun                 (* t.Run(hivesim.TestSpec{...}) *)
  | PcSend                (* doneCh <- struct{}{} *)
  | PcExit (deferred : bool)   (* leaving: run [s.Release(1)] if it was deferred *)
  | PcDone.

Record task : Type := mkTask {
  pc : task_pc;
  env : option TestEnv;
  acquired : Z;            (* calls to Acquire that succeeded *)
  released : Z;            (* calls to Release *)
  ran : bool               (* the test body has run *)
}.

Record sched_state : Type := mkSched {
  sem : Weighted;
  ctx_done : bool;
  tasks : list task;
  done : nat;
  main_returned : bool
}.

Inductive action : Type :=
  | ActTask (i : nat)      (* goroutine i takes its next step *)
  | ActMain                (* the loop of RunTests looks at its condition *)
  | ActCancel.             (* the parent context is cancelled *)

(** A test case; its [Run] function is opaque to the scheduler. *)
Record TestSpec : Type := mkTestSpec {
  spec_Name : string;
  spec_Description : string
}.

Record RunTestsParams : Type := mkParams {
  params_Devnet : Devnet;
  Tests : list TestSpec;
  Concurrency : Z
}.

Definition task_step (root : nat) (net : Devnet) (s : sched_state) (t : task)
    : option (task * Weighted * nat) :=
  match pc t with
  | PcAcquire1 =>
    match Acquire (ctx_done s) (sem s) with
    | None => None
    | Some (None, sem') =>
      Some (mkTask PcDefer (env t) (acquired t + 1) (released t) (ran t),
            sem', done s)
    | Some (Some _, sem') =>
      Some (mkTask (PcExit false) (env t) (acquired t) (released t) (ran t),
            sem', done s)
    end
  | PcDefer =>
    Some (mkTask PcNewEnv (env t) (acquired t) (released t) (ran t),
          sem s, done s)
  | PcNewEnv =>
    Some (mkTask PcAcquire2
            (Some {| Context := root; Net := Some net;
                     lastCtx := None; lastCancel := None |})
            (acquired t) (released t) (ran t),
          sem s, done s)
  | PcAcquire2 =>
    match Acquire (ctx_done s) (sem s) with
    | None => None
    | Some (None, sem') =>
      Some (mkTask PcRun (env t) (acquired t + 1) (released t) (ran t),
            sem', done s)
    | Some (Some _, sem') =>
      Some (mkTask (PcExit true) (env t) (acquired t) (released t) (ran t),
            sem', done s)
    end
  | PcRun =>
    Some (mkTask PcSend (env t) (acquired t) (released t) true, sem s, done s)
  | PcSend =>
    (* unbuffered channel: needs RunTests to be receiving *)
    if negb (main_returned s) && (done s <? length (tasks s))%nat
    then Some (mkTask (PcExit true) (env t) (acquired t) (released t) (ran t),
               sem s, S (done s))
    else None
  | PcExit true =>
    Some (mkTask PcDone (env t) (acquired t) (released t + 1) (ran t),
          Release (sem s), done s)
  | PcExit false =>
    Some (mkTask PcDone (env t) (acquired t) (released t) (ran t),
          sem s, done s)
  | PcDone => None
  end.

Definition sched_step (root : nat) (net : Devnet) (a : action) (s : sched_state)
    : sched_state :=
  match a with
  | ActTask i =>
    match tasks s !! i with
    | None => s
    | Some t =>
      match task_step root net s t with
      | None => s
      | Some (t', sem', done') =>
        mkSched sem' (ctx_done s) (<[i := t']> (tasks s)) done' (main_returned s)
      end
    end
  | ActMain =>
    if (done s <? length (tasks s))%nat
    then if ctx_done s
         then mkSched (sem s) (ctx_done s) (tasks s) (done s) true
         else s
    else mkSched (sem s) (ctx_done s) (tasks s) (done s) true
  | ActCancel => mkSched (sem s) true (tasks s) (done s) (main_returned s)
  end.

(** [RunTests(ctx, t, params)] under a schedule: the state after the
    goroutines and the main loop took the steps listed. *)
Definition RunTests_init (params : RunTestsParams) : sched_state :=
  mkSched (NewWeighted (Concurrency params)) false
          (map (fun _ => mkTask PcAcquire1 None 0 0 false) (Tests params))
          0 false.

Definition RunTests (root : nat) (params : RunTestsParams) (sched : list action)
    : sched_state :=
  foldl (fun s a => sched_step root (params_Devnet params) a s)
        (RunTests_init params) sched.

(** ** WaitProveEvent (helper.go) *)

Definition Subscription := Z.

(** Which case of the [select] of [WaitProveEvent] fires. *)
Inductive prove_select : Type :=
  | SubErr (e : error)            (* <-sub.Err() *)
  | BlockProven (id : Z)          (* <-eventCh, with e.Id.Uint64() *)
  | ProveCtxDone.                 (* <-ctx.Done() *)

Inductive prove_effect : Type :=
  | EffLog (msg : string)
  | EffUnsubscribe (s : Subscription).

Fixpoint prove_loop (selects : list prove_select)
    : outcome unit * list prove_effect :=
  match selects with
  | [] => (Blocked, [])
  | SubErr e :: _ => (FailNow (FatalErr "Failed to watch prove event" e), [])
  | BlockProven id :: selects' =>
    if id =? 1 then (Returned tt, []) else prove_loop selects'
  | ProveCtxDone :: _ =>
    (Returned tt, [EffLog "test is finished before watch proved event"])
  end.

(** [watch] is what [taikoL1.WatchBlockProven] handed back: an
    [event.Subscription] interface value (nil is [None]) and an error.
    [defer sub.Unsubscribe()] evaluates the method value [sub.Unsubscribe]
    when the [defer] statement executes (Go specification, "Defer
    statements" and "Method values"), which panics for a nil interface. *)
Definition WaitProveEvent (watch : option Subscription * option error)
    (selects : list prove_select) : outcome unit * list prove_effect :=
  let '(sub, err) := watch in
  match sub with
  | None => (Panicked NilDereference, [])
  | Some s =>
    let '(res, log) :=
      match err with
      | Some e => (FailNow (FatalErr "Failed to watch prove event" e), [])
      | None => prove_loop selects
      end in
    match res with
    | Blocked => (Blocked, log)
    | _ => (res, log ++ [EffUnsubscribe s])     (* the deferred call *)
    end
  end.

(** ** Vocabulary of the properties *)

(** An answer of the receipt query that [errors.Is] recognises as
    not-found-yet. *)
Definition not_found_yet (a : receipt_answer) : Prop :=
  errors_Is_NotFound (snd a) = true.

(** A height answer below the target, without error: the loop sleeps and
    polls again. *)
Definition below (n : Z) (a : height_answer) : Prop :=
  fst a < n /\ snd a = None.

(** An answer that neither carries a receipt nor a fatal error. *)
Definition no_receipt (a : receipt_answer) : Prop :=
  fst a = None /\ (snd a = None \/ errors_Is_NotFound (snd a) = true).

(** An answer that carries a receipt, and no error other than not-found. *)
Definition has_receipt (a : receipt_answer) : Prop :=
  fst a <> None /\ (snd a = None \/ errors_Is_NotFound (snd a) = true).

Definition is_poll (e : vault_event) : bool :=
  match e with EvTransactionReceipt _ => true | _ => false end.

(** How many receipt queries a log holds. *)
Fixpoint polls (log : list vault_event) : nat :=
  match log with
  | [] => 0
  | e :: log' => (if is_poll e then 1 else 0) + polls log'
  end.

(** [k] rounds that find nothing: a poll, then a sleep of one second. *)
Fixpoint idle_rounds (h : Hash) (k : nat) : list vault_event :=
  match k with
  | O => []
  | S k' => EvTransactionReceipt h :: EvSleep 1000 :: idle_rounds h k'
  end.

(** How many threads have been through [makeFundingTx]. *)
Fixpoint made_count (ts : list vthread) : nat :=
  match ts with
  | [] => 0
  | t :: ts' => (if made_tx t then 1 else 0) + made_count ts'
  end.

(** A caller for which [crypto.GenerateKey] produced a key. *)
Definition has_key (call : (error + PrivateKey) * Z) : bool :=
  match fst call with inr _ => true | inl _ => false end.

Fixpoint keyed_count (calls : list ((error + PrivateKey) * Z)) : nat :=
  match calls with
  | [] => 0
  | call :: calls' => (if has_key call then 1 else 0) + keyed_count calls'
  end.

(** How many steps a schedule gives to thread [i]. *)
Fixpoint steps_of (i : nat) (sched : list nat) : nat :=
  match sched with
  | [] => 0
  | j :: sched' => (if Nat.eqb j i then 1 else 0) + steps_of i sched'
  end.

(** Where a caller stands after [k] steps of its own: a caller with a key
    stores it in its first step and builds its funding transaction in the
    second; a caller without a key is stopped by its first step. *)
Definition phase_ok (call : (error + PrivateKey) * Z) (k : nat) (t : vthread)
    : Prop :=
  match fst call, k with
  | inl e, O => t = VGenerateKey (inl e) (snd call)
  | inl _, S _ => t = VStopped false
  | inr key, O => t = VGenerateKey (inr key) (snd call)
  | inr _, S O => exists address, t = VMakeFundingTx address (snd call)
  | inr _, S (S _) => made_tx t = true
  end.

(** The most-recent-context slot is coherent: when a context was issued,
    the stored cancel function is its own, and the context is in the
    table.  The struct literals of the package leave both fields nil, and
    [TimeoutCtx] is the only code that writes them. *)
Definition slot_ok (t : TestEnv) (w : ctx_table) : Prop :=
  match lastCtx t with
  | None => True
  | Some p => lastCancel t = Some p /\ (p < length w)%nat
  end.

(** The whitelist transaction [tx] was submitted and its receipt came back
    with the successful status. *)
Definition whitelist_confirmed (a : prover_answers) (tx : Hash) : Prop :=
  new_taiko_client a = None /\ new_transactor a = None
  /\ whitelist_prover a = inr tx
  /\ exists r, wait_receipt a = (Some r, None)
              /\ Status r = ReceiptStatusSuccessful.

(** The event of a container being started. *)
Definition is_start (e : devnet_event) : Prop :=
  match e with EvStartClient _ _ _ => True | _ => False end.








(** Permits a task holds: what it acquired and has not released. *)
Definition held (t : task) : Z := acquired t - released t.

Fixpoint total_held (ts : list task) : Z :=
  match ts with
  | [] => 0
  | t :: ts' => held t + total_held ts'
  end.

(** What the counters of a task are at each point of the goroutine. *)
Definition counters_ok (t : task) : Prop :=
  match pc t with
  | PcAcquire1 | PcExit false =>
    acquired t = 0 /\ released t = 0 /\ ran t = false
  | PcDefer | PcNewEnv | PcAcquire2 =>
    acquired t = 1 /\ released t = 0 /\ ran t = false
  | PcRun => acquired t = 2 /\ released t = 0 /\ ran t = false
  | PcSend => acquired t = 2 /\ released t = 0 /\ ran t = true
  | PcExit true =>
    released t = 0
    /\ ((acquired t = 1 /\ ran t = false) \/ (acquired t = 2 /\ ran t = true))
  | PcDone =>
    (acquired t = 0 /\ released t = 0 /\ ran t = false)
    \/ (acquired t = 1 /\ released t = 1 /\ ran t = false)
    \/ (acquired t = 2 /\ released t = 1 /\ ran t = true)
  end.

Definition task_inv (n : Z) (t : task) : Prop :=
  counters_ok t /\ acquired t <= Z.max 0 n.

Definition sched_inv (n : Z) (s : sched_state) : Prop :=
  size (sem s) = n
  /\ cur (sem s) = total_held (tasks s)
  /\ Forall (task_inv n) (tasks s).

(** The test ran its body and its goroutine has ended. *)
Definition completed (t : task) : Prop := pc t = PcDone /\ ran t = true.

Definition sample_devnet : Devnet :=
  {| c := mkConfig 1 2 3;
     clients := mkClientsByRole [mkClientDefinition "l1"] [mkClientDefinition "l2"]
                  [mkClientDefinition "driver"] [mkClientDefinition "proposer"]
                  [mkClientDefinition "prover"] (Some (mkClientDefinition "protocol"));
     l1Engines := []; l2Engines := []; provers := [] |}.

(** What every schedule preserves: the nonces handed out so far are
    [c, c + 1, ...], one per thread that went through [makeFundingTx],
    and the counter stands right after them. *)
Definition nonce_inv (c : Z) (N : nat) (s : vstate) : Prop :=
  length (vs_threads s) = N
  /\ map Nonce (vs_built s) = seqZ c (Z.of_nat (length (vs_built s)))
  /\ length (vs_built s) = made_count (vs_threads s)
  /\ nonce (vs_vault s) = wrap64 (c + Z.of_nat (length (vs_built s))).

(** A concrete stand-in for go-ethereum, to evaluate the Vault on. *)
Definition sample_externals : Externals :=
  {| PubkeyToAddress := fun key => key + 1000;
     SignTx := fun tx chain key => inr (Nonce tx + chain);
     tx_Hash := fun tx => Nonce (inner tx) + 500;
     gasPrice := 30 * GWei |}.

(** ** More of the Vault: keys and signing *)

Section VaultKeys.
Context `{Externals}.

(** [InsertKey(key)]: store an externally supplied key under its address. *)
Definition InsertKey (key : PrivateKey) (v : Vault) : Vault :=
  let addr := PubkeyToAddress key in
  {| chainID := chainID v; nonce := nonce v;
     accounts := <[addr := key]> (accounts v) |}.

(** The two ways [SignTransaction] fails. *)
Inductive sign_error : Type :=
  | ErrSenderNotInVault (sender : Address)   (* "sender account %v not in vault" *)
  | ErrSigner (e : error).                   (* the error of types.SignTx *)

(** [SignTransaction(sender, tx)]. *)
Definition SignTransaction (sender : Address) (tx : DynamicFeeTx) (v : Vault)
    : sign_error + Transaction :=
  match FindKey sender v with
  | None => inl (ErrSenderNotInVault sender)
  | Some key =>
    match SignTx tx (chainID v) key with
    | inl e => inl (ErrSigner e)
    | inr sg => inr {| inner := tx; signature := sg |}
    end
  end.

(** The operations that write to a Vault, each one atomic under [v.mu]. *)
Inductive vault_op : Type :=
  | OpGenerateKey (drawn : error + PrivateKey)
  | OpInsertKey (key : PrivateKey)
  | OpNextNonce.

Definition vault_apply (v : Vault) (op : vault_op) : Vault :=
  match op with
  | OpGenerateKey drawn => snd (GenerateKey drawn v)
  | OpInsertKey key => InsertKey key v
  | OpNextNonce => snd (nextNonce v)
  end.

(** The address an operation stores a key under, if any. *)
Definition stores_at (op : vault_op) : option Address :=
  match op with
  | OpGenerateKey (inr key) | OpInsertKey key => Some (PubkeyToAddress key)
  | _ => None
  end.

Definition is_next_nonce (op : vault_op) : bool :=
  match op with OpNextNonce => true | _ => false end.

End VaultKeys.

(** ** More of the wait primitives *)

(** Which case of the [select] of [WaitNewHead] fires.  [sub.Err()] yields
    nil when its channel is closed without an error. *)
Inductive head_select : Type :=
  | HeadArrived (number : Z)          (* h := <-ch, with h.Number.Uint64() *)
  | HeadSubErr (e : option error)     (* err := <-sub.Err() *)
  | HeadCtxDone.                      (* <-ctx.Done() *)

Fixpoint newhead_loop (wantHeight : Z) (selects : list head_select)
    : outcome unit :=
  match selects with
  | [] => Blocked
  | HeadArrived number :: selects' =>
    if number >=? wantHeight then Returned tt
    else newhead_loop wantHeight selects'
  | HeadSubErr (Some e) :: _ => FailNow (RequireNoError e)
  | HeadSubErr None :: selects' => newhead_loop wantHeight selects'
  | HeadCtxDone :: _ => FailNow (Fatal "program close before test finish")
  end.

(** [WaitNewHead(ctx, t, cli, wantHeight)]; [subscribe] is what
    [cli.SubscribeNewHead] handed back.  Here the error is checked before
    [defer sub.Unsubscribe()]. *)
Definition WaitNewHead (subscribe : option Subscription * option error)
    (wantHeight : Z) (selects : list head_select)
    : outcome unit * list prove_effect :=
  let '(sub, err) := subscribe in
  match err with
  | Some e => (FailNow (RequireNoError e), [])
  | None =>
    match sub with
    | None => (Panicked NilDereference, [])
    | Some s =>
      match newhead_loop wantHeight selects with
      | Blocked => (Blocked, [])
      | res => (res, [EffUnsubscribe s])        (* the deferred call *)
      end
    end
  end.

(** A select outcome that [WaitNewHead] passes over. *)
Definition head_ignored (wantHeight : Z) (x : head_select) : Prop :=
  match x with
  | HeadArrived number => number < wantHeight
  | HeadSubErr None => True
  | _ => False
  end.

(** A select outcome that [WaitProveEvent] passes over. *)
Definition prove_ignored (x : prove_select) : Prop :=
  match x with
  | BlockProven id => id <> 1
  | _ => False
  end.

Definition is_unsubscribe (e : prove_effect) : bool :=
  match e with EffUnsubscribe _ => true | _ => false end.

Fixpoint unsubscribes (log : list prove_effect) : nat :=
  match log with
  | [] => 0
  | e :: log' => (if is_unsubscribe e then 1 else 0) + unsubscribes log'
  end.

(** ** More of the Devnet *)

Definition GetL2ELNode (idx : Z) (d : Devnet) : outcome ELNode :=
  if (idx <? 0) || (idx >=? Z.of_nat (length (l2Engines d)))
  then FailNow (Fatal "only have %d taiko geth nodes, cannot find %d")
  else
    match l2Engines d !! Z.to_nat idx with
    | Some n => Returned n
    | None => Panicked IndexOutOfRange
    end.

Definition EnodeURL := string.

Inductive l2_event : Type :=
  | L2Lock                               (* d.Lock() *)
  | L2Unlock                             (* d.Unlock() *)
  | L2EnodeURL (n : ELNode)              (* n.EnodeURL() *)
  | L2StartClient (name : string) (bootnodes : list EnodeURL) (cl : container)
  | L2ChainID (n : ELNode)               (* WaitELNodesUp *)
  | L2Append (n : ELNode).

(** What the network answers during one [AddL2ELNode]. *)
Record l2_answers : Type := mkL2Answers {
  enode_url : ELNode -> error + EnodeURL;
  start_l2 : option container;
  l2_chain_id : option error
}.

(** The loop over [d.l2Engines]: one [envTaikoBootNode] option per engine
    already there, or the error of the first [EnodeURL] that fails. *)
Fixpoint collect_bootnodes (enode : ELNode -> error + EnodeURL)
    (engines : list ELNode) : (error + list EnodeURL) * list l2_event :=
  match engines with
  | [] => (inr [], [])
  | n :: engines' =>
    match enode n with
    | inl err => (inl err, [L2EnodeURL n])
    | inr url =>
      let '(res, log) := collect_bootnodes enode engines' in
      (match res with inl err => inl err | inr urls => inr (url :: urls) end,
       L2EnodeURL n :: log)
    end
  end.

Definition AddL2ELNode (clientIdx : nat) (a : l2_answers) (d : Devnet)
    : outcome ELNode * Devnet * list l2_event :=
  let '(boot, log1) := collect_bootnodes (enode_url a) (l2Engines d) in
  match boot with
  | inl err =>
    (FailNow (FatalErr "failed to get enode url of the first taiko geth node, error: %w" err),
     d, L2Lock :: log1)
  | inr bootnodes =>
    let log2 := L2Lock :: log1 ++ [L2Unlock] in
    match L2 (clients d) !! clientIdx with
    | None => (Panicked IndexOutOfRange, d, log2)
    | Some def =>
      match start_l2 a with
      | None => (FailNow (Fatal "client launch failed"), d, log2)
      | Some cl =>
        let n := {| el_client := cl; el_rollup := L2RollupAddress (c d) |} in
        let log3 := log2 ++ [L2StartClient (Name def) bootnodes cl; L2ChainID n] in
        match l2_chain_id a with
        | Some err =>
          (FailNow (FatalErr "engine node %s should be up within %v,err=%v" err),
           d, log3)
        | None =>
          (Returned n,
           {| c := c d; clients := clients d; l1Engines := l1Engines d;
              l2Engines := l2Engines d ++ [n]; provers := provers d |},
           log3 ++ [L2Lock; L2Append n; L2Unlock])
        end
      end
    end
  end.

(** Locks taken and not yet released in a log. *)
Fixpoint lock_depth (log : list l2_event) : Z :=
  match log with
  | [] => 0
  | L2Lock :: log' => 1 + lock_depth log'
  | L2Unlock :: log' => lock_depth log' - 1
  | _ :: log' => lock_depth log'
  end.

Definition is_l2_start (e : l2_event) : Prop :=
  match e with L2StartClient _ _ _ => True | _ => False end.

(** One of the operations that add a node to a Devnet. *)
Inductive devnet_op : Type :=
  | OpAddL1 (Idx : nat) (a : l1_answers)
  | OpAddL2 (clientIdx : nat) (a : l2_answers)
  | OpAddProver (l1 l2 : ELNode) (a : prover_answers).

Definition devnet_apply (d : Devnet) (op : devnet_op) : Devnet :=
  match op with
  | OpAddL1 Idx a => snd (fst (AddL1ELNode Idx a d))
  | OpAddL2 clientIdx a => snd (fst (AddL2ELNode clientIdx a d))
  | OpAddProver l1 l2 a => snd (fst (AddProverNode l1 l2 a d))
  end.

(** The Devnet [d'] differs from [d] at most by entries added at the end
    of its sequences. *)
Definition grows (d d' : Devnet) : Prop :=
  c d' = c d /\ clients d' = clients d
  /\ l1Engines d `prefix_of` l1Engines d'
  /\ l2Engines d `prefix_of` l2Engines d'
  /\ provers d `prefix_of` provers d'.

(** ** More of TestEnv and RunTests *)

(** The tail of the [Run] closure that [RunTests] hands to [t.Run]:
    [if env.lastCtx != nil { env.lastCancel() }]. *)
Definition cancel_last (t : TestEnv) (w : ctx_table) : outcome ctx_table :=
  match lastCtx t with
  | Some _ =>
    match lastCancel t with
    | Some k => Returned (cancel k w)
    | None => Panicked NilDereference
    end
  | None => Returned w
  end.

(** The timeout contexts a test body asks for, one after the other, up to
    the point where it ends. *)
Fixpoint issue_contexts (timeouts : list Z) (t : TestEnv) (w : ctx_table)
    : TestEnv * ctx_table :=
  match timeouts with
  | [] => (t, w)
  | timeout :: timeouts' =>
    let '(_, t', w') := TimeoutCtx timeout t w in
    issue_contexts timeouts' t' w'
  end.

(** How the test body [test.Run(t, env)] ends: it returns, or it ends its
    goroutine through [t.Fatal], [t.FailNow] or [require.*]
    ([runtime.Goexit]). *)
Inductive body_end : Type :=
  | BodyReturns
  | BodyGoexit (f : failure).

(** The [Run] closure that [RunTests] hands to [t.Run], for a body that
    asks for the contexts [timeouts] and then ends as [ending] says.  The
    cancel after the body is an ordinary statement, not a deferred one: it
    runs only when the body returns. *)
Definition Run_closure (timeouts : list Z) (ending : body_end)
    (t : TestEnv) (w : ctx_table) : outcome unit * TestEnv * ctx_table :=
  let '(t', w') := issue_contexts timeouts t w in
  match ending with
  | BodyGoexit f => (FailNow f, t', w')
  | BodyReturns =>
    match cancel_last t' w' with
    | Returned w'' => (Returned tt, t', w'')
    | FailNow f => (FailNow f, t', w')
    | Panicked p => (Panicked p, t', w')
    | Blocked => (Blocked, t', w')
    end
  end.

(** The task is inside [t.Run] or has run its body and waits to report. *)
Definition in_flight (t : task) : bool :=
  match pc t with PcRun | PcSend => true | _ => false end.

Fixpoint count_tasks (p : task -> bool) (ts : list task) : nat :=
  match ts with
  | [] => 0
  | t :: ts' => (if p t then 1 else 0) + count_tasks p ts'
  end.

(** The task has sent on [doneCh]. *)
Definition has_sent (t : task) : bool :=
  ran t && match pc t with PcExit true | PcDone => true | _ => false end.

(** After [k] calls of [TimeoutCtx] on a TestEnv that started with an
    empty slot and the table [w0]: the table holds [k] more contexts, the
    old ones are untouched, the slot holds the last one issued, which is
    live, and all those issued before it are cancelled. *)
Definition ctx_inv (w0 : ctx_table) (k : nat) (t : TestEnv) (w : ctx_table) : Prop :=
  length w = (length w0 + k)%nat
  /\ take (length w0) w = w0
  /\ match lastCtx t with
     | None => k = 0%nat
     | Some p => lastCancel t = Some p /\ S p = (length w0 + k)%nat
                 /\ (0 < k)%nat /\ is_cancelled p w = false
     end
  /\ forall j, (S j < k)%nat -> is_cancelled (length w0 + j) w = true.

(** The count of [RunTests] is the number of tasks that have sent on
    [doneCh], and the loop has returned only with the context done or
    with every test counted. *)
Definition returns_ok (s : sched_state) : Prop :=
  done s = count_tasks has_sent (tasks s)
  /\ (main_returned s = true ->
      ctx_done s = true \/ (length (tasks s) <= done s)%nat).

(** ** LoggingRoundTrip *)

(** An HTTP message as [RoundTrip] sees it: what is not the body, and the
    body: [None] for a nil [Body], otherwise what [io.ReadAll] yields. *)
Record Request : Type := mkRequest {
  req_head : string;
  req_Body : option (error + list Byte.byte)
}.

Record Response : Type := mkResponse {
  resp_head : string;
  resp_Body : option (error + list Byte.byte)
}.

Inductive rt_event : Type :=
  | RtCloseRequestBody                          (* req.Body.Close() *)
  | RtLogf (format : string) (line : list Byte.byte)
  | RtInner (req : Request)                     (* rt.Inner.RoundTrip(&reqCopy) *)
  | RtCloseResponseBody.                        (* the deferred resp.Body.Close() *)

(** [(rt *LoggingRoundTrip).RoundTrip(req)].  [TrimSpace] is
    [bytes.TrimSpace]; [Inner] is the wrapped transport, which hands back
    a response pointer and an error, either of which may be nil.  There is
    no nil check on [req.Body], on the response or on its [Body]. *)
Definition RoundTrip (TrimSpace : list Byte.byte -> list Byte.byte)
    (Inner : Request -> option Response * option error) (req : Request)
    : outcome (option Response * option error) * list rt_event :=
  match req_Body req with
  | None => (Panicked NilDereference, [])       (* io.ReadAll(req.Body) *)
  | Some (inl err) => (Returned (None, Some err), [RtCloseRequestBody])
  | Some (inr reqBytes) =>
    let reqCopy := {| req_head := req_head req;
                      req_Body := Some (inr reqBytes) |} in
    let log := [RtCloseRequestBody; RtLogf ">>  %s" (TrimSpace reqBytes);
                RtInner reqCopy] in
    let '(resp, err) := Inner reqCopy in
    match err with
    | Some e => (Returned (None, Some e), log)
    | None =>
      match resp with
      | None => (Panicked NilDereference, log)  (* resp.Body on a nil response *)
      | Some resp =>
        match resp_Body resp with
        | None => (Panicked NilDereference, log)    (* defer resp.Body.Close() *)
        | Some (inl e) =>
          (Returned (None, Some e), log ++ [RtCloseResponseBody])
        | Some (inr respBytes) =>
          let respCopy := {| resp_head := resp_head resp;
                             resp_Body := Some (inr respBytes) |} in
          (Returned (Some respCopy, None),
           log ++ [RtLogf "<<  %s" (TrimSpace respBytes); RtCloseResponseBody])
        end
      end
    end
  end.




(** * Properties *)

(** ** wait-for-receipt *)

Lemma WaitReceipt_skip_not_found status pending ticks answers selects :
  Forall not_found_yet pending ->
  ticks = replicate (length pending) Tick ->
  WaitReceipt status (pending ++ answers) (ticks ++ selects)
  = WaitReceipt status answers selects.
Proof.
  intros Hp ->. induction Hp as [|[receipt err] pending Hnf _ IH]; [done|].
  cbn [length replicate app WaitReceipt].
  unfold not_found_yet in Hnf; cbn in Hnf. rewrite Hnf. exact IH.
Qed.

(** C3: once the receipt is found (after any number of not-found polls
    answered by ticks), [WaitReceipt] returns that receipt, never nil, and
    the error is non-nil exactly when the receipt's status differs from
    the expected one; it is then the status-mismatch error. *)
Theorem WaitReceipt_status_mismatch status r pending answers selects :
  Forall not_found_yet pending ->
  exists err,
    WaitReceipt status (pending ++ (Some r, None) :: answers)
                (replicate (length pending) Tick ++ selects)
    = Returned (Some r, err)
    /\ (err <> None <-> Status r <> status)
    /\ (Status r <> status -> err = Some (ErrStatus status (Status r))).
Proof.
  intros Hp. rewrite (WaitReceipt_skip_not_found _ _ _ _ _ Hp eq_refl).
  cbn [WaitReceipt errors_Is_NotFound].
  destruct (Z.eqb_spec (Status r) status) as [Heq|Hne]; cbn [negb].
  - exists None. split; [done|]. split; [split; congruence|congruence].
  - exists (Some (ErrStatus status (Status r))). split; [done|].
    split; [split; congruence|done].
Qed.

Lemma WaitReceipt_status_mismatch_witness :
  exists err,
    WaitReceipt 1 ([(None, Some ErrNotFound); (None, Some (ErrWrap "rpc" ErrNotFound))]
                   ++ (Some (mkReceipt 0 7 3), None) :: [])
                (replicate 2 Tick ++ [])
    = Returned (Some (mkReceipt 0 7 3), err)
    /\ (err <> None <-> Status (mkReceipt 0 7 3) <> 1)
    /\ (Status (mkReceipt 0 7 3) <> 1 -> err = Some (ErrStatus 1 (Status (mkReceipt 0 7 3)))).
Proof.
  apply (WaitReceipt_status_mismatch 1 (mkReceipt 0 7 3)
           [(None, Some ErrNotFound); (None, Some (ErrWrap "rpc" ErrNotFound))]).
  repeat constructor.
Defined.

(** C4: one round of the loop.  A not-found answer followed by a tick goes
    on with the next answer; a not-found answer followed by the context
    being done returns the context's error and a nil receipt; any other
    error is returned at once with a nil receipt, whatever answers and
    select outcomes might have followed. *)
Theorem WaitReceipt_retry_policy status receipt err answers selects :
  (errors_Is_NotFound err = true ->
     WaitReceipt status ((receipt, err) :: answers) (Tick :: selects)
     = WaitReceipt status answers selects
     /\ forall e, WaitReceipt status ((receipt, err) :: answers) (CtxDone e :: selects)
                  = Returned (None, Some (ctx_Err e)))
  /\ (forall e, err = Some e -> is_not_found e = false ->
        WaitReceipt status ((receipt, err) :: answers) selects
        = Returned (None, Some e)).
Proof.
  split.
  - intros Hnf. cbn [WaitReceipt]. rewrite Hnf. done.
  - intros e -> Hnf. cbn [WaitReceipt errors_Is_NotFound]. rewrite Hnf. done.
Qed.

Lemma WaitReceipt_retry_policy_witness :
  (WaitReceipt 1 ((None, Some ErrNotFound) :: [(Some (mkReceipt 1 7 3), None)]) (Tick :: [])
   = WaitReceipt 1 [(Some (mkReceipt 1 7 3), None)] []
   /\ forall e, WaitReceipt 1 ((None, Some ErrNotFound) :: [(Some (mkReceipt 1 7 3), None)])
                            (CtxDone e :: [])
                = Returned (None, Some (ctx_Err e)))
  /\ WaitReceipt 1 ((None, Some (ErrRPC 32000)) :: [(Some (mkReceipt 1 7 3), None)]) [Tick]
     = Returned (None, Some (ErrRPC 32000)).
Proof.
  split.
  - apply (WaitReceipt_retry_policy 1 None (Some ErrNotFound)
             [(Some (mkReceipt 1 7 3), None)] []). reflexivity.
  - apply (WaitReceipt_retry_policy 1 None (Some (ErrRPC 32000))
             [(Some (mkReceipt 1 7 3), None)] [Tick]); reflexivity.
Defined.

(** ** wait-for-height *)

Lemma WaitBlock_helper_below n lows rest :
  Forall (below n) lows ->
  HelperGo.WaitBlock n (lows ++ rest)
  = (fst (HelperGo.WaitBlock n rest),
     replicate (length lows) block_poll_ms ++ snd (HelperGo.WaitBlock n rest)).
Proof.
  induction 1 as [|[h e] lows [Hlt He] _ IH]; cbn [app length replicate].
  - by destruct (HelperGo.WaitBlock n rest).
  - cbn in Hlt, He. subst e. cbn [HelperGo.WaitBlock].
    rewrite (proj2 (Z.ltb_lt h n) Hlt), IH. done.
Qed.

Lemma WaitBlock_devnet_below n lows rest :
  Forall (below n) lows ->
  DevnetGo.WaitBlock n (lows ++ rest)
  = (fst (DevnetGo.WaitBlock n rest),
     replicate (length lows) block_poll_ms ++ snd (DevnetGo.WaitBlock n rest)).
Proof.
  induction 1 as [|[h e] lows [Hlt He] _ IH]; cbn [app length replicate].
  - by destruct (DevnetGo.WaitBlock n rest).
  - cbn in Hlt, He. subst e. cbn [DevnetGo.WaitBlock].
    rewrite (proj2 (Z.ltb_lt h n) Hlt), IH. done.
Qed.

(** C5 as stated fails for [WaitBlock] of helper.go: an RPC error of the
    height query is not handed back to the caller. *)
Lemma WaitBlock_helper_error_not_returned :
  fst (HelperGo.WaitBlock 5 [(0, Some (ErrRPC 32000))])
    <> Returned (Some (ErrRPC 32000))
  /\ fst (HelperGo.WaitBlock 5 [(0, Some (ErrRPC 32000))])
     = FailNow (RequireNoError (ErrRPC 32000)).
Proof. split; [discriminate|reflexivity]. Qed.

(** C5, amended: both versions of [WaitBlock] sleep 500ms after every
    height below the target and return nil at the first height that
    reaches it.  An error of the height query ends the call at once, with
    no further poll: the version of helper.go ends the test through
    [require.NoError] (it never returns a non-nil error), the version of
    the second file returns the error to its caller. *)
Theorem WaitBlock_poll_and_error n lows rest :
  Forall (below n) lows ->
  (forall h, n <= h ->
     HelperGo.WaitBlock n (lows ++ (h, None) :: rest)
     = (Returned None, replicate (length lows) 500)
     /\ DevnetGo.WaitBlock n (lows ++ (h, None) :: rest)
        = (Returned None, replicate (length lows) 500))
  /\ (forall h e,
        HelperGo.WaitBlock n (lows ++ (h, Some e) :: rest)
        = (FailNow (RequireNoError e), replicate (length lows) 500)
        /\ DevnetGo.WaitBlock n (lows ++ (h, Some e) :: rest)
           = (Returned (Some e), replicate (length lows) 500))
  /\ (forall heights e, fst (HelperGo.WaitBlock n heights) <> Returned (Some e)).
Proof.
  intros Hl. split; [|split].
  - intros h Hh.
    rewrite WaitBlock_helper_below, WaitBlock_devnet_below by done.
    cbn [HelperGo.WaitBlock DevnetGo.WaitBlock].
    rewrite (proj2 (Z.ltb_ge h n) Hh). cbn. by rewrite app_nil_r.
  - intros h e.
    rewrite WaitBlock_helper_below, WaitBlock_devnet_below by done.
    cbn. by rewrite app_nil_r.
  - intros heights e. induction heights as [|[h [e'|]] heights IH]; cbn; try done.
    destruct (h <? n); [|done].
    destruct (HelperGo.WaitBlock n heights); cbn in *. done.
Qed.

Lemma WaitBlock_poll_and_error_witness :
  (forall h, 2 <= h ->
     HelperGo.WaitBlock 2 ([(0, None); (1, None)] ++ (h, None) :: [])
     = (Returned None, replicate 2 500)
     /\ DevnetGo.WaitBlock 2 ([(0, None); (1, None)] ++ (h, None) :: [])
        = (Returned None, replicate 2 500))
  /\ (forall h e,
        HelperGo.WaitBlock 2 ([(0, None); (1, None)] ++ (h, Some e) :: [])
        = (FailNow (RequireNoError e), replicate 2 500)
        /\ DevnetGo.WaitBlock 2 ([(0, None); (1, None)] ++ (h, Some e) :: [])
           = (Returned (Some e), replicate 2 500))
  /\ (forall heights e, fst (HelperGo.WaitBlock 2 heights) <> Returned (Some e)).
Proof.
  apply (WaitBlock_poll_and_error 2 [(0, None); (1, None)] []).
  repeat constructor.
Defined.

(** ** The Vault: polling for the funding receipt *)

Section VaultPolling.
Context `{Externals}.

Lemma poll_funding_bounded address h receipts left i :
  fst (poll_funding address h receipts i left) <> Blocked
  /\ (polls (snd (poll_funding address h receipts i left)) <= left)%nat.
Proof.
  revert i. induction left as [|left IH]; intros i; cbn [poll_funding].
  - split; [done|]. cbn. lia.
  - specialize (IH (S i)).
    destruct (receipts i) as [[r|] [e|]]; cbn [negb];
      try destruct (is_not_found e); cbn [negb fst snd];
      try (split; [done|cbn; lia]);
      destruct (poll_funding address h receipts (S i) left) as [res log];
      cbn [fst snd] in *; (split; [tauto|]); cbn; lia.
Qed.

Lemma poll_funding_idle address h receipts k left i :
  (forall j, (j < k)%nat -> no_receipt (receipts (i + j)%nat)) ->
  (k <= left)%nat ->
  poll_funding address h receipts i left
  = (fst (poll_funding address h receipts (i + k) (left - k)),
     idle_rounds h k ++ snd (poll_funding address h receipts (i + k) (left - k))).
Proof.
  revert left i. induction k as [|k IH]; intros left i Hidle Hle.
  - rewrite Nat.add_0_r, Nat.sub_0_r. cbn.
    by destruct (poll_funding address h receipts i left).
  - destruct left as [|left]; [lia|]. cbn [poll_funding].
    pose proof (Hidle 0%nat ltac:(lia)) as [Hr He]. rewrite Nat.add_0_r in Hr, He.
    destruct (receipts i) as [r e]; cbn in Hr, He; subst r.
    rewrite (IH left (S i)); [|intros j Hj; specialize (Hidle (S j) ltac:(lia));
      by replace (S i + j)%nat with (i + S j)%nat by lia|lia].
    replace (S i + k)%nat with (i + S k)%nat by lia.
    replace (S left - S k)%nat with (left - k)%nat by lia.
    destruct e as [e|]; [|done].
    destruct He as [He|He]; [done|]. cbn in He. rewrite He. done.
Qed.

(** C8: after the funding transaction is sent, [CreateAccount] always
    ends, having asked for the receipt at most 60 times.  If the first
    receipt shows up in round [k < 60] it returns the new address after
    [k + 1] polls with a one-second sleep after each of the [k] empty
    ones; if all 60 rounds are empty it ends the test with the time-out
    failure, after 60 polls and 60 sleeps. *)
Theorem CreateAccount_poll_budget amount key receipts v tx v2 data :
  let address := PubkeyToAddress key in
  let h := tx_Hash tx in
  makeFundingTx address (default 0 amount) (snd (GenerateKey (inr key) v))
  = (Returned tx, v2, data) ->
  exists res log,
    CreateAccount amount (inr key) None receipts v
    = (res, v2, EvSendTransaction tx :: log)
    /\ res <> Blocked
    /\ (polls log <= 60)%nat
    /\ (forall k, (k < 60)%nat ->
          (forall j, (j < k)%nat -> no_receipt (receipts j)) ->
          has_receipt (receipts k) ->
          res = Returned address
          /\ log = idle_rounds h k ++ [EvTransactionReceipt h])
    /\ ((forall j, (j < 60)%nat -> no_receipt (receipts j)) ->
          res = FailNow (Fatal "timed out getting transaction receipt")
          /\ log = idle_rounds h 60).
Proof.
  intros address h Hmk. unfold CreateAccount. cbn [GenerateKey].
  replace (match amount with Some a => a | None => 0 end) with (default 0 amount)
    by (by destruct amount).
  cbn [GenerateKey snd] in Hmk. fold address in Hmk |- *. rewrite Hmk. fold h.
  unfold receipt_poll_budget.
  pose proof (poll_funding_bounded address h receipts 60 0) as [Hnb Hle].
  destruct (poll_funding address h receipts 0 60) as [res log] eqn:Hpoll.
  cbn [fst snd] in Hnb, Hle.
  exists res, log. split; [done|]. split; [done|]. split; [done|]. split.
  - intros k Hk Hidle [Hr He].
    rewrite (poll_funding_idle address h receipts k 60 0) in Hpoll by (done || lia).
    cbn [Nat.add] in Hpoll.
    destruct (60 - k)%nat as [|left] eqn:Hleft; [lia|].
    cbn [poll_funding] in Hpoll.
    destruct (receipts k) as [[r|] e]; cbn in Hr, He; [|done].
    destruct e as [e|].
    + destruct He as [He|He]; [done|]. cbn in He. rewrite He in Hpoll.
      cbn in Hpoll. by inversion Hpoll.
    + cbn in Hpoll. by inversion Hpoll.
  - intros Hidle.
    rewrite (poll_funding_idle address h receipts 60 60 0) in Hpoll by (done || lia).
    cbn [Nat.add Nat.sub poll_funding fst snd] in Hpoll.
    rewrite app_nil_r in Hpoll. by inversion Hpoll.
Qed.

End VaultPolling.

Lemma CreateAccount_poll_budget_witness :
  let E := sample_externals in
  let receipts := fun i : nat =>
    if (i <? 2)%nat then (None, Some ErrNotFound) else (Some (mkReceipt 1 500 9), None) in
  exists res log,
    CreateAccount (Some 5) (inr 42) None receipts (NewVault 167)
    = (res,
       mkVault 167 1 (<[1042 := 42]> ∅),
       EvSendTransaction (mkTransaction (mkDynamicFeeTx 0 75000 GWei (30 * GWei) 1042 5) 167)
         :: log)
    /\ res <> Blocked
    /\ (polls log <= 60)%nat
    /\ (forall k, (k < 60)%nat ->
          (forall j, (j < k)%nat -> no_receipt (receipts j)) ->
          has_receipt (receipts k) ->
          res = Returned 1042
          /\ log = idle_rounds 500 k ++ [EvTransactionReceipt 500])
    /\ ((forall j, (j < 60)%nat -> no_receipt (receipts j)) ->
          res = FailNow (Fatal "timed out getting transaction receipt")
          /\ log = idle_rounds 500 60).
Proof.
  intros E receipts.
  apply (@CreateAccount_poll_budget E (Some 5) 42 receipts (NewVault 167)
           (mkTransaction (mkDynamicFeeTx 0 75000 GWei (30 * GWei) 1042 5) 167)
           (mkVault 167 1 (<[1042 := 42]> ∅))
           (mkDynamicFeeTx 0 75000 GWei (30 * GWei) 1042 5)).
  reflexivity.
Defined.

(** ** The Vault: nonces of concurrent callers *)

Lemma wrap64_small x : 0 <= x < 2 ^ 64 -> wrap64 x = x.
Proof. intros. unfold wrap64. by apply Z.mod_small. Qed.

Lemma made_count_le ts : (made_count ts <= length ts)%nat.
Proof. induction ts as [|t ts IH]; cbn; [lia|]. destruct (made_tx t); lia. Qed.

Lemma made_count_lt ts i t :
  ts !! i = Some t -> made_tx t = false -> (made_count ts < length ts)%nat.
Proof.
  revert i. induction ts as [|t0 ts IH]; intros [|i] Hi Hm; cbn in *; try done.
  - inversion Hi; subst. rewrite Hm. pose proof (made_count_le ts). lia.
  - specialize (IH _ Hi Hm). destruct (made_tx t0); lia.
Qed.

Lemma made_count_insert ts i t t' :
  ts !! i = Some t ->
  (made_count (<[i := t']> ts) + (if made_tx t then 1 else 0)
   = made_count ts + (if made_tx t' then 1 else 0))%nat.
Proof.
  revert i. induction ts as [|t0 ts IH]; intros [|i] Hi; simpl in *; try done.
  - inversion Hi; subst. repeat case_match; lia.
  - specialize (IH _ Hi). repeat case_match; lia.
Qed.

Section VaultNonces.
Context `{Externals}.

Lemma vinit_inv v calls :
  0 <= nonce v < 2 ^ 64 -> nonce_inv (nonce v) (length calls) (vinit v calls).
Proof.
  intros Hv. unfold nonce_inv, vinit; cbn. rewrite length_map.
  split; [done|]. split; [done|]. split.
  - induction calls as [|call calls IH]; cbn; [done|]. by rewrite <- IH.
  - by rewrite Z.add_0_r, wrap64_small.
Qed.

Lemma vstep_inv c N i s :
  0 <= c -> c + Z.of_nat N <= 2 ^ 64 ->
  nonce_inv c N s -> nonce_inv c N (vstep i s).
Proof.
  intros Hc HN (Hlen & Hseq & Hcnt & Hnonce). unfold vstep.
  destruct (vs_threads s !! i) as [[drawn amount|address amount|address tx|b]|] eqn:Hi;
    [| |done..].
  - (* GenerateKey: the counter and the transactions built are untouched *)
    assert (forall t', made_tx t' = false ->
              nonce_inv c N (mkVstate (snd (GenerateKey drawn (vs_vault s)))
                                      (<[i := t']> (vs_threads s)) (vs_built s)))
      as Hstep.
    { intros t' Ht'. unfold nonce_inv; cbn [vs_threads vs_built vs_vault].
      rewrite length_insert. split; [done|]. split; [done|]. split.
      - pose proof (made_count_insert _ _ _ t' Hi) as Hins.
        rewrite Ht' in Hins. cbn [made_tx] in Hins. lia.
      - by destruct drawn. }
    destruct drawn as [e|key]; cbn [GenerateKey] in *; by apply Hstep.
  - (* makeFundingTx: the next nonce is c + k, and the counter moves by one *)
    pose proof (made_count_lt _ _ _ Hi eq_refl) as Hlt.
    set (k := length (vs_built s)) in *.
    assert (nonce (vs_vault s) = c + Z.of_nat k) as Hcur
      by (rewrite Hnonce; apply wrap64_small; lia).
    assert (forall t', made_tx t' = true ->
              nonce_inv c N
                (mkVstate (snd (nextNonce (vs_vault s)))
                   (<[i := t']> (vs_threads s))
                   (vs_built s ++
                    [mkDynamicFeeTx (nonce (vs_vault s)) 75000 (1 * GWei)
                       gasPrice address amount])))
      as Hstep.
    { intros t' Ht'. unfold nonce_inv; cbn [vs_threads vs_built vs_vault].
      rewrite length_insert, length_app, map_app. cbn [length map Nonce].
      fold k. replace (k + 1)%nat with (S k) by lia.
      split; [done|]. split; [by rewrite seqZ_S, Hseq, Hcur|]. split.
      - pose proof (made_count_insert _ _ _ t' Hi) as Hins.
        rewrite Ht' in Hins. cbn [made_tx] in Hins. lia.
      - cbn [nextNonce snd nonce]. rewrite Hcur. f_equal. lia. }
    unfold makeFundingTx. cbn [nextNonce].
    destruct (SignTx _ _ _) as [err|sg]; by apply Hstep.
Qed.

Lemma vrun_inv c N sched s :
  0 <= c -> c + Z.of_nat N <= 2 ^ 64 ->
  nonce_inv c N s -> nonce_inv c N (vrun sched s).
Proof.
  intros Hc HN. revert s. unfold vrun.
  induction sched as [|i sched IH]; intros s Hs; cbn [foldl]; [done|].
  apply IH. by apply vstep_inv.
Qed.

(** The two steps of a thread are what [CreateAccount] does to the Vault:
    one caller, run alone, leaves the Vault as [CreateAccount] does. *)
Lemma CreateAccount_as_thread amount drawn send receipts v :
  snd (fst (CreateAccount amount drawn send receipts v))
  = vs_vault (vrun [0; 0]%nat (vinit v [(drawn, default 0 amount)])).
Proof.
  unfold CreateAccount, vrun, vinit, vstep.
  cbn [foldl map fst snd vs_threads vs_vault lookup list_lookup].
  replace (match amount with Some a => a | None => 0 end) with (default 0 amount)
    by (by destruct amount).
  destruct drawn as [e|key]; cbn [GenerateKey]; [done|].
  cbn [vs_threads vs_vault insert list_insert lookup list_lookup].
  destruct (makeFundingTx _ _ _) as [[[tx|f|p|] v2] data]; try done.
  cbn [vs_vault]. destruct send as [e|]; [done|].
  by destruct (poll_funding _ _ _ _ _).
Qed.

Lemma lookup_map_list {A B} (f : A -> B) (l : list A) i :
  map f l !! i = f <$> (l !! i).
Proof. revert i. induction l as [|x l IH]; intros [|i]; simpl; done. Qed.

Lemma steps_of_app i sched1 sched2 :
  steps_of i (sched1 ++ sched2) = (steps_of i sched1 + steps_of i sched2)%nat.
Proof. induction sched1 as [|j sched1 IH]; cbn [app steps_of]; [done|]. lia. Qed.

Lemma vstep_other i j s : i <> j -> vs_threads (vstep j s) !! i = vs_threads s !! i.
Proof.
  intros Hne. unfold vstep.
  destruct (vs_threads s !! j) as [[drawn amount|address amount|address tx|b]|];
    try done.
  - destruct (GenerateKey drawn (vs_vault s)) as [[a|f|p|] v']; cbn [vs_threads];
      by rewrite list_lookup_insert_ne.
  - destruct (makeFundingTx address amount (vs_vault s)) as [[[tx|f|p|] v'] data];
      cbn [vs_threads]; by rewrite list_lookup_insert_ne.
Qed.

(** Progress of one caller: its state after a schedule is fixed by the
    number of steps the schedule gave it, whatever the other callers did. *)
Lemma vrun_phase v calls sched i call :
  calls !! i = Some call ->
  exists t, vs_threads (vrun sched (vinit v calls)) !! i = Some t
            /\ phase_ok call (steps_of i sched) t.
Proof.
  intros Hcall. induction sched as [|j sched IH] using rev_ind.
  - cbn. rewrite lookup_map_list, Hcall. cbn. eexists. split; [done|].
    unfold phase_ok. by destruct (fst call).
  - destruct IH as (t & Ht & Hphase). unfold vrun in *. rewrite foldl_app.
    cbn [foldl]. rewrite steps_of_app. cbn [steps_of].
    set (s := foldl (fun s i => vstep i s) (vinit v calls) sched) in *.
    destruct (Nat.eqb_spec j i) as [->|Hne].
    + assert (i < length (vs_threads s))%nat as Hlt by (by eapply lookup_lt_Some).
      replace (steps_of i sched + (1 + 0))%nat with (S (steps_of i sched)) by lia.
      unfold vstep. rewrite Ht. unfold phase_ok in *.
      destruct (fst call) as [e|key].
      * destruct (steps_of i sched) as [|k].
        -- subst t. cbn [GenerateKey vs_threads]. eexists.
           split; [by apply list_lookup_insert_eq|done].
        -- subst t. by eexists.
      * destruct (steps_of i sched) as [|[|k]].
        -- subst t. cbn [GenerateKey vs_threads]. eexists.
           split; [by apply list_lookup_insert_eq|by eexists].
        -- destruct Hphase as [address ->].
           destruct (makeFundingTx _ _ _) as [[[tx|f|p|] v'] data];
             cbn [vs_threads]; eexists;
             (split; [by apply list_lookup_insert_eq|done]).
        -- destruct t as [drawn amount|address amount|address tx|b]; try done;
             by eexists.
    + rewrite vstep_other by done. rewrite Nat.add_0_r. by eexists.
Qed.

Lemma made_count_keyed calls ts :
  Forall2 (fun call t => made_tx t = has_key call) calls ts ->
  made_count ts = keyed_count calls.
Proof.
  induction 1 as [|call t calls ts Hm _ IH]; cbn [made_count keyed_count]; [done|].
  by rewrite Hm, IH.
Qed.

Lemma keyed_count_all calls :
  Forall (fun call => has_key call = true) calls -> keyed_count calls = length calls.
Proof.
  induction 1 as [|call calls Hk _ IH]; cbn [keyed_count length]; [done|].
  rewrite Hk, IH. done.
Qed.

(** Once every caller has had two steps, the callers with a key have all
    built their funding transaction, and only they. *)
Lemma vrun_all_made v calls sched :
  length (vs_threads (vrun sched (vinit v calls))) = length calls ->
  (forall i, (i < length calls)%nat -> (2 <= steps_of i sched)%nat) ->
  made_count (vs_threads (vrun sched (vinit v calls))) = keyed_count calls.
Proof.
  intros Hlen Hsteps. apply made_count_keyed.
  apply Forall2_same_length_lookup_2; [done|].
  intros i call t Hcall Ht.
  destruct (vrun_phase v calls sched i call Hcall) as (t' & Ht' & Hphase).
  assert (t' = t) as -> by congruence.
  pose proof (Hsteps i (lookup_lt_Some _ _ _ Hcall)) as Hi.
  unfold phase_ok, has_key in *.
  destruct (fst call) as [e|key]; destruct (steps_of i sched) as [|[|k]];
    try lia; by subst.
Qed.

(** C2: [N] callers of [CreateAccount] share one Vault whose counter
    stands at [c], with room for [N] more nonces in a uint64.  Every call
    of [makeFundingTx], and so every [CreateAccount] whose key was
    generated, places the counter's value in its funding transaction and
    increments the counter exactly once.  Whatever the interleaving, and
    at every point of it, the nonces placed in the funding transactions
    built so far are, in the order in which the lock was taken,
    [c, c + 1, c + 2, ...]: a contiguous increasing run from the pre-call
    value, pairwise distinct, one per caller that went through
    [makeFundingTx]; and the counter has moved by exactly their number.
    Once every caller has taken its two steps, each caller with a key has
    placed its nonce: when all [N] keys were generated, the nonces are
    exactly [c, ..., c + N - 1] and the counter stands at [c + N]. *)
Theorem Vault_nonces_contiguous v calls sched :
  0 <= nonce v < 2 ^ 64 ->
  nonce v + Z.of_nat (length calls) <= 2 ^ 64 ->
  let s := vrun sched (vinit v calls) in
  let issued := map Nonce (vs_built s) in
  issued = seqZ (nonce v) (Z.of_nat (length issued))
  /\ NoDup issued
  /\ length issued = made_count (vs_threads s)
  /\ (length issued <= length calls)%nat
  /\ nonce (vs_vault s) = wrap64 (nonce v + Z.of_nat (length issued))
  /\ (forall recipient amount v0,
        let '(_, v1, data) := makeFundingTx recipient amount v0 in
        Nonce data = nonce v0 /\ nonce v1 = wrap64 (nonce v0 + 1))
  /\ (forall amount key send receipts v0,
        nonce (snd (fst (CreateAccount amount (inr key) send receipts v0)))
        = wrap64 (nonce v0 + 1))
  /\ ((forall i, (i < length calls)%nat -> (2 <= steps_of i sched)%nat) ->
      length issued = keyed_count calls
      /\ (Forall (fun call => has_key call = true) calls ->
          issued = seqZ (nonce v) (Z.of_nat (length calls))
          /\ nonce (vs_vault s) = wrap64 (nonce v + Z.of_nat (length calls)))).
Proof.
  intros Hv HN s issued.
  destruct (vrun_inv (nonce v) (length calls) sched _ (proj1 Hv) HN
              (vinit_inv v calls Hv)) as (Hlen & Hseq & Hcnt & Hnonce).
  fold s in Hlen, Hseq, Hcnt, Hnonce. subst issued.
  rewrite length_map. split; [done|]. split; [rewrite Hseq; apply NoDup_seqZ|].
  split; [done|]. split; [rewrite Hcnt, <- Hlen; apply made_count_le|].
  split; [done|]. split; [|split].
  - intros recipient amount v0. unfold makeFundingTx. cbn [nextNonce].
    by destruct (SignTx _ _ _).
  - intros amount key send receipts v0. unfold CreateAccount. cbn [GenerateKey].
    unfold makeFundingTx. cbn [nextNonce nonce].
    destruct (SignTx _ _ _) as [err|sg]; [done|].
    destruct send as [err|]; [done|]. by destruct (poll_funding _ _ _ _ _).
  - intros Hsteps.
    pose proof (vrun_all_made v calls sched Hlen Hsteps) as Hall. fold s in Hall.
    split; [congruence|]. intros Hkeys.
    rewrite (keyed_count_all _ Hkeys) in Hall.
    rewrite <- Hall, <- Hcnt. done.
Qed.

End VaultNonces.

Lemma Vault_nonces_contiguous_witness :
  let calls := [(inr 11, 1); (inr 12, 2); (inr 13, 3)] in
  let sched := [1; 0; 1; 2; 0; 2]%nat in
  let s := @vrun sample_externals sched (vinit (mkVault 167 7 ∅) calls) in
  let issued := map Nonce (vs_built s) in
  issued = seqZ 7 (Z.of_nat (length issued))
  /\ NoDup issued
  /\ length issued = made_count (vs_threads s)
  /\ (length issued <= 3)%nat
  /\ nonce (vs_vault s) = wrap64 (7 + Z.of_nat (length issued))
  /\ ((forall i, (i < length calls)%nat -> (2 <= steps_of i sched)%nat) ->
      length issued = keyed_count calls
      /\ (Forall (fun call => has_key call = true) calls ->
          issued = seqZ 7 (Z.of_nat (length calls))
          /\ nonce (vs_vault s) = wrap64 (7 + Z.of_nat (length calls))))
  /\ (forall i, (i < length calls)%nat -> (2 <= steps_of i sched)%nat)
  /\ Forall (fun call => has_key call = true) calls
  /\ issued = [7; 8; 9].
Proof.
  intros calls sched s issued.
  destruct (@Vault_nonces_contiguous sample_externals (mkVault 167 7 ∅) calls sched)
    as (H1 & H2 & H3 & H4 & H5 & _ & _ & H8); [cbn [nonce]; lia|cbn; lia|].
  split; [exact H1|]. split; [exact H2|]. split; [exact H3|]. split; [exact H4|].
  split; [exact H5|]. split; [exact H8|]. split.
  - intros i Hi. cbn in Hi.
    destruct i as [|[|[|i]]]; cbn; lia.
  - split; [by repeat constructor|reflexivity].
Defined.

Example Vault_three_callers :
  map Nonce (vs_built (@vrun sample_externals [1; 0; 1; 2; 0; 2]%nat
     (vinit (mkVault 167 7 ∅) [(inr 11, 1); (inr 12, 2); (inr 13, 3)])))
  = [7; 8; 9].
Proof. reflexivity. Qed.

(** ** TestEnv: the timeout context *)

Lemma is_cancelled_cancel p w :
  (p < length w)%nat -> is_cancelled p (cancel p w) = true.
Proof.
  intros Hp. unfold is_cancelled, cancel. rewrite list_lookup_alter_eq.
  destruct (lookup_lt_is_Some_2 w p Hp) as [s ->]. done.
Qed.

Lemma cancel_other p i w : p <> i -> cancel p w !! i = w !! i.
Proof. intros. unfold cancel. by apply list_lookup_alter_ne. Qed.

(** C9: a call of [TimeoutCtx] on a TestEnv with a coherent slot returns a
    fresh context derived from the root context with the given timeout.
    When a context had been issued before, that one is cancelled by the
    call (and no other entry of the table changes); on the first call
    nothing is cancelled.  Afterwards the slot holds the new context and
    its cancel function, and is coherent again. *)
Theorem TimeoutCtx_cancels_previous timeout t w :
  slot_ok t w ->
  exists t' w',
    let ctx := length w in
    let fresh := {| ctx_parent := Some (Context t); ctx_timeout := timeout;
                    ctx_cancelled := false |} in
    TimeoutCtx timeout t w = (Returned ctx, t', w')
    /\ lastCtx t' = Some ctx /\ lastCancel t' = Some ctx
    /\ Context t' = Context t
    /\ w' !! ctx = Some fresh
    /\ (forall p, lastCtx t = Some p ->
          is_cancelled p w' = true /\ w' = cancel p w ++ [fresh])
    /\ (forall i, lastCtx t <> Some i -> (i < length w)%nat -> w' !! i = w !! i)
    /\ (lastCtx t = None -> w' = w ++ [fresh])
    /\ slot_ok t' w'.
Proof.
  unfold slot_ok, TimeoutCtx, context_WithTimeout.
  destruct (lastCtx t) as [p|] eqn:Hlast.
  - intros [-> Hp]. eexists _, _. cbn zeta.
    assert (length (cancel p w) = length w) as Hlen
      by (unfold cancel; apply length_alter).
    rewrite Hlen. split; [reflexivity|]. cbn [lastCtx lastCancel Context].
    split; [done|]. split; [done|]. split; [done|]. split.
    { rewrite <- Hlen. by rewrite list_lookup_middle. }
    split.
    { intros q [= <-]. split; [|done]. unfold is_cancelled.
      rewrite lookup_app_l by lia. by apply is_cancelled_cancel. }
    split.
    { intros i Hi Hlt. rewrite lookup_app_l by lia. apply cancel_other. congruence. }
    split; [done|]. split; [done|]. rewrite length_app, Hlen. cbn. lia.
  - intros _. eexists _, _. cbn zeta. split; [reflexivity|].
    cbn [lastCtx lastCancel Context].
    split; [done|]. split; [done|]. split; [done|]. split.
    { by rewrite list_lookup_middle. }
    split; [done|]. split.
    { intros i _ Hlt. by rewrite lookup_app_l by lia. }
    split; [done|]. split; [done|]. rewrite length_app. cbn. lia.
Qed.

Lemma TimeoutCtx_cancels_previous_witness :
  let t := {| Context := 0%nat; Net := None; lastCtx := Some 1%nat;
              lastCancel := Some 1%nat |} in
  let w := [mkCtx None 0 false; mkCtx (Some 0%nat) 10000 false] in
  exists t' w',
    let ctx := length w in
    let fresh := {| ctx_parent := Some (Context t); ctx_timeout := 2500;
                    ctx_cancelled := false |} in
    TimeoutCtx 2500 t w = (Returned ctx, t', w')
    /\ lastCtx t' = Some ctx /\ lastCancel t' = Some ctx
    /\ Context t' = Context t
    /\ w' !! ctx = Some fresh
    /\ (forall p, lastCtx t = Some p ->
          is_cancelled p w' = true /\ w' = cancel p w ++ [fresh])
    /\ (forall i, lastCtx t <> Some i -> (i < length w)%nat -> w' !! i = w !! i)
    /\ (lastCtx t = None -> w' = w ++ [fresh])
    /\ slot_ok t' w'.
Proof.
  intros t w. apply (TimeoutCtx_cancels_previous 2500 t w).
  unfold slot_ok; cbn. split; [reflexivity|lia].
Defined.

Example Ctx_twice :
  let t0 := {| Context := 0%nat; Net := None; lastCtx := None; lastCancel := None |} in
  let w0 := [mkCtx None 0 false] in
  let '(_, t1, w1) := Ctx t0 w0 in
  let '(r2, t2, w2) := Ctx t1 w1 in
  r2 = Returned 2%nat /\ lastCtx t2 = Some 2%nat
  /\ is_cancelled 1 w2 = true /\ is_cancelled 2 w2 = false.
Proof. cbn. done. Qed.

(** ** WaitProveEvent *)

(** C10: when [WatchBlockProven] hands back an error, and with it a nil
    subscription, [WaitProveEvent] ends in a nil dereference caused by the
    deferred [sub.Unsubscribe()], not in the failure that [t.Fatal] would
    report; with a subscription at hand the same error ends the test
    cleanly, the subscription being released on the way out. *)
Theorem WaitProveEvent_nil_subscription e selects :
  fst (WaitProveEvent (None, Some e) selects) = Panicked NilDereference
  /\ (forall f, fst (WaitProveEvent (None, Some e) selects) <> FailNow f)
  /\ (forall s, WaitProveEvent (Some s, Some e) selects
                = (FailNow (FatalErr "Failed to watch prove event" e),
                   [EffUnsubscribe s])).
Proof. split; [done|]. split; [by intros f|done]. Qed.

(** ** Devnet: whitelist before prover *)


Ltac no_start_log :=
  repeat first [apply Forall_nil_2 | apply Forall_cons_2; [cbn; tauto|]].

Ltac split_log pre :=
  repeat (destruct pre as [|? pre]; simplify_eq/=).

(** What [addWhitelist] does, by whether the whitelist got confirmed. *)
Lemma addWhitelist_cases a d :
  (exists tx, whitelist_confirmed a tx
     /\ addWhitelist a d
        = (Returned None, d,
           [EvWhitelistProver (L2ProverAddress (c d)) tx; EvWaitReceipt tx;
            EvLog "Add prover to whitelist finished"]))
  \/ ((forall tx, ~ whitelist_confirmed a tx)
      /\ exists res log, addWhitelist a d = (res, d, log)
           /\ res <> Returned None /\ Forall (fun e => ~ is_start e) log).
Proof.
  destruct a as [ntc ntr wl [receipt err] sp].
  unfold whitelist_confirmed, addWhitelist, bind, get, emit, ret, fatal, throw.
  cbn.
  destruct ntc as [e1|];
    [right; split; [by intros tx (? & _)|];
     eexists _, _; split; [reflexivity|]; split; [done|no_start_log]|].
  destruct ntr as [e2|];
    [right; split; [by intros tx (_ & ? & _)|];
     eexists _, _; split; [reflexivity|]; split; [done|no_start_log]|].
  destruct wl as [e3|tx];
    [right; split; [by intros tx (_ & _ & ? & _)|];
     eexists _, _; split; [reflexivity|]; split; [done|no_start_log]|].
  destruct err as [e4|];
    [right; split; [by intros tx' (_ & _ & _ & r & ? & _)|];
     eexists _, _; split; [reflexivity|]; split; [done|no_start_log]|].
  destruct receipt as [r|];
    [|right; split; [by intros tx' (_ & _ & _ & r & ? & _)|];
      eexists _, _; split; [reflexivity|]; split; [done|no_start_log]].
  destruct (Z.eqb_spec (Status r) ReceiptStatusSuccessful) as [Hok|Hbad]; cbn.
  - left. exists tx. split; [|done]. repeat split; eauto.
  - right. split; [intros tx' (_ & _ & _ & r' & ? & ?); congruence|].
    eexists _, _; split; [reflexivity|]; split; [done|no_start_log].
Qed.

(** C6: in every run of [AddProverNode], a container is started only
    after the whitelist transaction was submitted and its receipt awaited,
    both earlier in the log, and only when the receipt came back
    successful; the prover sequence grows only by a prover that was
    started so; and when the whitelist is not confirmed (submission error,
    receipt error, or unsuccessful status) nothing is started, the prover
    sequence is unchanged and the call does not return. *)
Theorem AddProverNode_whitelist_first l1 l2 a d :
  exists res d' log,
    AddProverNode l1 l2 a d = (res, d', log)
    /\ (forall name p cl pre post,
          log = pre ++ EvStartClient name p cl :: post ->
          exists tx, whitelist_confirmed a tx
            /\ EvWhitelistProver (L2ProverAddress (c d)) tx ∈ pre
            /\ EvWaitReceipt tx ∈ pre)
    /\ (provers d' = provers d
        \/ exists name cl pre post,
             log = pre ++ EvStartClient name (ParamsProver l1 l2) cl
                       :: EvAppendProver (mkProverNode cl) :: post
             /\ provers d' = provers d ++ [mkProverNode cl]
             /\ res = Returned (mkProverNode cl))
    /\ ((forall tx, ~ whitelist_confirmed a tx) ->
          Forall (fun e => ~ is_start e) log
          /\ provers d' = provers d
          /\ forall n, res <> Returned n).
Proof.
  unfold AddProverNode, bind at 1, get.
  destruct (Prover (clients d)) as [|def defs] eqn:Hprover; cbn [length Nat.eqb].
  { eexists _, _, _. split; [reflexivity|]. split; [|split].
    - intros name p cl pre post Hlog. by destruct pre.
    - by left.
    - intros _. split; [constructor|]. split; [done|]. by intros n. }
  unfold bind at 1.
  destruct (addWhitelist_cases a d) as [(tx & Hconf & ->)|(Hnot & res & log & -> & Hres & Hlog)].
  - (* the whitelist is confirmed *)
    cbn [lookup list_lookup]. unfold StartClient.
    destruct (start_prover a) as [cl|];
      unfold bind, emit, ret, fatal, append_prover, get, put; cbn.
    + eexists _, _, _. split; [reflexivity|]. split; [|split].
      * intros name p cl' pre post Hpre. exists tx. split; [done|].
        split_log pre. split; set_solver.
      * right. eexists (Name def), cl, [_; _; _], []. done.
      * intros Hnot. by destruct (Hnot tx).
    + eexists _, _, _. split; [reflexivity|]. split; [|split].
      * intros name p cl' pre post Hpre. split_log pre.
      * by left.
      * intros Hnot. by destruct (Hnot tx).
  - (* the whitelist is not confirmed *)
    destruct res as [[e|]|f|p|]; [|done|..]; unfold fatal; cbn;
      rewrite ?app_nil_r;
      (eexists _, _, _; split; [reflexivity|]; split; [|split];
       [intros name p' cl pre post ->;
        apply Forall_app in Hlog as [_ Hlog]; by inversion Hlog
       |by left
       |intros _; split; [done|]; split; [done|]; by intros n]).
Qed.

Example AddProverNode_confirmed :
  AddProverNode (mkELNode 10 1) (mkELNode 20 2)
    (mkProverAnswers None None (inr 77) (Some (mkReceipt 1 77 5), None) (Some 30))
    sample_devnet
  = (Returned (mkProverNode 30),
     mkDevnet (c sample_devnet) (clients sample_devnet) [] [] [mkProverNode 30],
     [EvWhitelistProver 3 77; EvWaitReceipt 77;
      EvLog "Add prover to whitelist finished";
      EvStartClient "prover" (ParamsProver (mkELNode 10 1) (mkELNode 20 2)) 30;
      EvAppendProver (mkProverNode 30)]).
Proof. reflexivity. Qed.

Example AddProverNode_reverted :
  AddProverNode (mkELNode 10 1) (mkELNode 20 2)
    (mkProverAnswers None None (inr 77) (Some (mkReceipt 0 77 5), None) (Some 30))
    sample_devnet
  = (FailNow (Fatal "Failed to commit transactions list"), sample_devnet,
     [EvWhitelistProver 3 77; EvWaitReceipt 77]).
Proof. reflexivity. Qed.

(** ** Devnet: contracts before the L1 engine is visible *)










Example AddL1ELNode_deploy_ok :
  AddL1ELNode 0 (mkL1Answers (Some 10) None (Some 11) (Some (mkExecInfo 0), None))
              sample_devnet
  = (Returned (mkELNode 10 1),
     mkDevnet (c sample_devnet) (clients sample_devnet) [mkELNode 10 1] [] [],
     [EvStartClient "l1" ParamsL1 10; EvChainID (mkELNode 10 1);
      EvStartClient "protocol" (ParamsContract (mkELNode 10 1)) 11;
      EvExec 11 "deploy.sh";
      EvLogNode "Deploy contracts on %s %s(%s)" (mkELNode 10 1);
      EvAppendL1 (mkELNode 10 1)]).
Proof. reflexivity. Qed.

Example AddL1ELNode_deploy_exit_code :
  AddL1ELNode 0 (mkL1Answers (Some 10) None (Some 11) (Some (mkExecInfo 1), None))
              sample_devnet
  = (FailNow (Fatal "failed to deploy contract on engine node %s, error: %v, result: %v"),
     sample_devnet,
     [EvStartClient "l1" ParamsL1 10; EvChainID (mkELNode 10 1);
      EvStartClient "protocol" (ParamsContract (mkELNode 10 1)) 11;
      EvExec 11 "deploy.sh"]).
Proof. reflexivity. Qed.

(** ** RunTests: the permits of the semaphore *)

Lemma held_nonneg n t : task_inv n t -> 0 <= held t.
Proof.
  unfold task_inv, counters_ok, held. intros [Hc _].
  destruct (pc t) as [| | | | | |[]|]; lia.
Qed.

Lemma total_held_nonneg n ts : Forall (task_inv n) ts -> 0 <= total_held ts.
Proof.
  induction 1 as [|t ts Ht _ IH]; cbn [total_held]; [lia|].
  pose proof (held_nonneg _ _ Ht). lia.
Qed.

Lemma held_le_total n ts i t :
  Forall (task_inv n) ts -> ts !! i = Some t -> held t <= total_held ts.
Proof.
  intros Hall. revert i. induction Hall as [|t0 ts Ht0 Hts IH]; intros [|i] Hi;
    simpl in *; try done.
  - inversion Hi; subst. pose proof (total_held_nonneg _ _ Hts). lia.
  - specialize (IH _ Hi). pose proof (held_nonneg _ _ Ht0). lia.
Qed.

Lemma total_held_insert ts i t t' :
  ts !! i = Some t ->
  total_held (<[i := t']> ts) = total_held ts - held t + held t'.
Proof.
  revert i. induction ts as [|t0 ts IH]; intros [|i] Hi; simpl in *; try done.
  - inversion Hi; subst. lia.
  - rewrite (IH _ Hi). lia.
Qed.

Lemma init_inv params :
  sched_inv (Concurrency params) (RunTests_init params).
Proof.
  unfold sched_inv, RunTests_init; cbn. split; [done|].
  induction (Tests params) as [|test tests [IH1 IH2]]; cbn.
  - split; [done|constructor].
  - split; [unfold held; cbn; lia|]. constructor; [|done].
    unfold task_inv, counters_ok; cbn. lia.
Qed.

(** One step of one goroutine keeps the books: the semaphore counts
    exactly the permits the tasks hold. *)
Lemma task_step_inv root net n s i t t' sem' done' :
  sched_inv n s -> tasks s !! i = Some t ->
  task_step root net s t = Some (t', sem', done') ->
  size sem' = n
  /\ cur sem' = total_held (<[i := t']> (tasks s))
  /\ task_inv n t'.
Proof.
  intros (Hsize & Hcur & Hall) Hi Hstep.
  pose proof (Forall_lookup_1 _ _ _ _ Hall Hi) as [Hc Hacq].
  pose proof (held_le_total _ _ _ _ Hall Hi) as Hle.
  rewrite (total_held_insert _ _ _ t' Hi).
  unfold task_step, Acquire, Release in Hstep.
  unfold counters_ok in Hc. unfold task_inv, counters_ok, held in *.
  destruct (pc t) as [| | | | | |[]|] eqn:Hpc;
    repeat (case_match; simplify_eq/=); cbn;
    repeat match goal with
           | H : (_ >=? _) = true |- _ => rewrite Z.geb_leb, Z.leb_le in H
           | H : (_ >=? _) = false |- _ => rewrite Z.geb_leb, Z.leb_gt in H
           end;
    intuition (try lia; try congruence).
Qed.

Lemma sched_step_inv root net n a s :
  sched_inv n s -> sched_inv n (sched_step root net a s).
Proof.
  intros Hs. destruct a as [i| |]; cbn [sched_step].
  - destruct (tasks s !! i) as [t|] eqn:Hi; [|done].
    destruct (task_step root net s t) as [[[t' sem'] done']|] eqn:Hstep; [|done].
    destruct (task_step_inv _ _ _ _ _ _ _ _ _ Hs Hi Hstep) as (H1 & H2 & H3).
    split; [done|]. split; [done|]. cbn [tasks].
    destruct Hs as (_ & _ & Hall).
    apply Forall_insert; done.
  - destruct Hs as (H1 & H2 & H3). repeat case_match; done.
  - destruct Hs as (H1 & H2 & H3). done.
Qed.

(** Under every schedule the semaphore counts exactly the permits the tasks
    hold, and every task's counters are those of its program point. *)
Lemma RunTests_inv root params sched :
  sched_inv (Concurrency params) (RunTests root params sched).
Proof.
  unfold RunTests. generalize (init_inv params).
  generalize (RunTests_init params). 
  induction sched as [|a sched IH]; intros s Hs; cbn [foldl]; [done|].
  apply IH. by apply sched_step_inv.
Qed.

Lemma total_held_completed ts :
  Forall counters_ok ts -> Forall completed ts ->
  total_held ts = Z.of_nat (length ts).
Proof.
  induction 1 as [|t ts Hc _ IH]; intros Hdone; [done|].
  apply Forall_cons_1 in Hdone as [[Hpc Hran] Hdone].
  cbn [total_held length]. rewrite (IH Hdone).
  unfold counters_ok in Hc. rewrite Hpc in Hc. unfold held. rewrite Hran in Hc.
  destruct Hc as [(? & ? & ?)|[(? & ? & ?)|(? & ? & ?)]]; try done. lia.
Qed.

(** Every test that ran to completion keeps one permit for good: when all
    tests have completed, as many permits are still taken as there were
    tests. *)
Lemma RunTests_permits_not_returned root params sched :
  Forall completed (tasks (RunTests root params sched)) ->
  cur (sem (RunTests root params sched)) = Z.of_nat (length (Tests params)).
Proof.
  intros Hdone.
  destruct (RunTests_inv root params sched) as (_ & -> & Hall).
  rewrite total_held_completed; [| |done].
  - f_equal. clear.  unfold RunTests. 
    transitivity (length (tasks (RunTests_init params)));
      [|by unfold RunTests_init; cbn; rewrite length_map].
    generalize (RunTests_init params).
    induction sched as [|a sched IH]; intros s; cbn [foldl]; [done|].
    rewrite IH. destruct a as [i| |]; cbn [sched_step]; repeat case_match;
      cbn; by rewrite ?length_insert.
  - eapply Forall_impl; [exact Hall|]. by intros t [Ht _].
Qed.

(** A test body runs only while its task holds two permits. *)
Lemma RunTests_body_needs_two_permits root params sched i t :
  tasks (RunTests root params sched) !! i = Some t ->
  ran t = true -> 2 <= Concurrency params.
Proof.
  intros Hi Hran.
  destruct (RunTests_inv root params sched) as (_ & _ & Hall).
  destruct (Forall_lookup_1 _ _ _ _ Hall Hi) as [Hc Hacq].
  unfold counters_ok in Hc.
  destruct (pc t) as [| | | | | |[]|]; rewrite Hran in Hc;
    (assert (acquired t = 2) as Hacq2 by (intuition congruence)); lia.
Qed.

(** C1 on the code: with a budget of two permits and one test, the test
    runs and completes, having acquired two permits and released one, and
    one permit stays taken after everything has finished; with a budget of
    one permit, the body of the single test runs under no schedule. *)
Theorem RunTests_permit_leak :
  (let s := RunTests 0 (mkParams sample_devnet [mkTestSpec "t" ""] 2)
              (replicate 8 (ActTask 0) ++ [ActMain]) in
   tasks s = [mkTask PcDone
                (Some (mkTestEnv 0 (Some sample_devnet) None None)) 2 1 true]
   /\ done s = 1%nat /\ main_returned s = true
   /\ sem s = {| size := 2; cur := 1 |})
  /\ (forall sched t,
        t ∈ tasks (RunTests 0 (mkParams sample_devnet [mkTestSpec "t" ""] 1) sched) ->
        ran t = false).
Proof.
  split; [by vm_compute|].
  intros sched t Ht. apply list_elem_of_lookup in Ht as [i Hi].
  destruct (ran t) eqn:Hran; [|done].
  pose proof (RunTests_body_needs_two_permits _ _ _ _ _ Hi Hran) as Hle.
  cbn in Hle. lia.
Qed.

(** * Further properties of the code *)

(** ** The Vault: keys *)

Section VaultKeysFacts.
Context `{Externals}.

Lemma vault_apply_other v op addr :
  stores_at op <> Some addr ->
  FindKey addr (vault_apply v op) = FindKey addr v.
Proof.
  unfold FindKey. destruct op as [[e|key]|key|]; cbn; intros Hne; try done.
  - apply lookup_insert_ne. congruence.
  - apply lookup_insert_ne. congruence.
Qed.

Lemma vault_apply_keeps v op addr :
  is_Some (FindKey addr v) -> is_Some (FindKey addr (vault_apply v op)).
Proof.
  unfold FindKey. destruct op as [[e|key]|key|]; cbn; intros Hs; try done.
  - destruct (decide (PubkeyToAddress key = addr)) as [->|Hne].
    + by rewrite lookup_insert_eq.
    + by rewrite lookup_insert_ne.
  - destruct (decide (PubkeyToAddress key = addr)) as [->|Hne].
    + by rewrite lookup_insert_eq.
    + by rewrite lookup_insert_ne.
Qed.

(** X1: whatever operations run on a Vault, a key that is in it stays
    findable under its address, and [FindKey] keeps returning that very
    key as long as no key with the same address is generated or inserted;
    a key just generated or inserted is found under its address. *)
Theorem Vault_keys_persist v ops addr key :
  FindKey addr v = Some key ->
  is_Some (FindKey addr (foldl vault_apply v ops))
  /\ (Forall (fun op => stores_at op <> Some addr) ops ->
      FindKey addr (foldl vault_apply v ops) = Some key)
  /\ (forall key',
        FindKey (PubkeyToAddress key')
                (foldl vault_apply v (ops ++ [OpGenerateKey (inr key')]))
        = Some key'
        /\ FindKey (PubkeyToAddress key')
                   (foldl vault_apply v (ops ++ [OpInsertKey key']))
           = Some key').
Proof.
  intros Hfind. split; [|split].
  - assert (is_Some (FindKey addr v)) as Hs by (by rewrite Hfind).
    clear Hfind. revert v Hs.
    induction ops as [|op ops IH]; intros v Hs; cbn [foldl]; [done|].
    apply IH. by apply vault_apply_keeps.
  - intros Hops. revert v Hfind.
    induction Hops as [|op ops Hop _ IH]; intros v Hfind; cbn [foldl]; [done|].
    apply IH. by rewrite vault_apply_other.
  - intros key'. rewrite !foldl_app. cbn [foldl vault_apply GenerateKey snd InsertKey].
    unfold FindKey; cbn [accounts]. split; apply lookup_insert_eq.
Qed.

(** X2: [SignTransaction] on a Vault grown from [NewVault] by any
    operations reports sender-not-in-vault exactly when no key with the
    sender's address was ever generated or inserted; when it succeeds, the
    signed transaction carries the data it was given. *)
Theorem SignTransaction_unknown_sender chain ops sender tx :
  let v := foldl vault_apply (NewVault chain) ops in
  (SignTransaction sender tx v = inl (ErrSenderNotInVault sender)
   <-> Forall (fun op => stores_at op <> Some sender) ops)
  /\ (forall signed, SignTransaction sender tx v = inr signed -> inner signed = tx).
Proof.
  intros v. split.
  - assert (FindKey sender v = None
            <-> Forall (fun op => stores_at op <> Some sender) ops) as Hnone.
    { subst v. generalize (NewVault chain) (eq_refl : FindKey sender (NewVault chain) = None).
      induction ops as [|op ops IH] using rev_ind; intros v0 Hv0.
      - cbn. split; [constructor|done].
      - rewrite foldl_app. cbn [foldl]. rewrite Forall_app, Forall_singleton.
        destruct (decide (stores_at op = Some sender)) as [Heq|Hne].
        + split; [|tauto]. intros Hnone. exfalso.
          destruct op as [[e|key]|key|]; cbn in Heq; try done;
            injection Heq as <-; unfold FindKey in Hnone; cbn in Hnone;
            by rewrite lookup_insert_eq in Hnone.
        + rewrite vault_apply_other by done. rewrite (IH v0 Hv0). tauto. }
    rewrite <- Hnone. unfold SignTransaction.
    destruct (FindKey sender v) as [key|]; [|done].
    split; [|done]. by destruct (SignTx tx (chainID v) key).
  - intros signed. unfold SignTransaction.
    destruct (FindKey sender v) as [key|]; [|done].
    destruct (SignTx tx (chainID v) key); [done|]. by intros [= <-].
Qed.

(** X3: a call of [CreateAccount] whose key was drawn uses up exactly one
    nonce and leaves the new key in the Vault, whether or not signing,
    sending or the funding succeed; when no key can be drawn it panics
    and leaves the Vault as it was. *)
Theorem CreateAccount_vault_effect amount drawn send receipts v :
  let '(res, v', log) := CreateAccount amount drawn send receipts v in
  match drawn with
  | inr key =>
    nonce v' = wrap64 (nonce v + 1)
    /\ chainID v' = chainID v
    /\ FindKey (PubkeyToAddress key) v' = Some key
    /\ (forall addr, addr <> PubkeyToAddress key -> FindKey addr v' = FindKey addr v)
  | inl _ => v' = v /\ log = [] /\ exists p, res = Panicked p
  end.
Proof.
  unfold CreateAccount.
  destruct drawn as [e|key]; cbn [GenerateKey]; [by eauto|].
  unfold makeFundingTx, nextNonce, FindKey.
  assert (forall v' : Vault,
            v' = {| chainID := chainID v; nonce := wrap64 (nonce v + 1);
                    accounts := <[PubkeyToAddress key := key]> (accounts v) |} ->
            nonce v' = wrap64 (nonce v + 1) /\ chainID v' = chainID v
            /\ accounts v' !! PubkeyToAddress key = Some key
            /\ (forall addr, addr <> PubkeyToAddress key ->
                  accounts v' !! addr = accounts v !! addr)) as Hres.
  { intros v' ->. cbn. split; [done|]. split; [done|].
    split; [by rewrite lookup_insert_eq|].
    intros addr Hne. by rewrite lookup_insert_ne. }
  cbn [chainID nonce accounts].
  destruct (SignTx _ _ _) as [err|sg]; [by apply Hres|].
  destruct send as [err|]; [by apply Hres|].
  destruct (poll_funding _ _ _ _ _) as [res log]. by apply Hres.
Qed.

(** X4: the two ways the funding fails before the poll budget is used up.
    A send error ends the test without a single receipt query.  A receipt
    query that returns an error other than not-found ends the test at
    that query, even if it also carries a receipt, with no sleep after
    it. *)
Theorem CreateAccount_fails_fast amount key receipts v tx v2 data :
  let address := PubkeyToAddress key in
  let h := tx_Hash tx in
  makeFundingTx address (default 0 amount) (snd (GenerateKey (inr key) v))
  = (Returned tx, v2, data) ->
  (forall err,
     CreateAccount amount (inr key) (Some err) receipts v
     = (FailNow (FatalErr "unable to send funding transaction: %v" err), v2,
        [EvSendTransaction tx]))
  /\ (forall k e,
        (k < 60)%nat ->
        (forall j, (j < k)%nat -> no_receipt (receipts j)) ->
        snd (receipts k) = Some e -> is_not_found e = false ->
        CreateAccount amount (inr key) None receipts v
        = (FailNow (FatalErr "error getting transaction receipt:" e), v2,
           EvSendTransaction tx :: idle_rounds h k ++ [EvTransactionReceipt h])).
Proof.
  intros address h Hmk. unfold CreateAccount. cbn [GenerateKey].
  replace (match amount with Some a => a | None => 0 end) with (default 0 amount)
    by (by destruct amount).
  cbn [GenerateKey snd] in Hmk. fold address in Hmk |- *. rewrite Hmk. fold h.
  split; [done|].
  intros k e Hk Hidle He Hnf. unfold receipt_poll_budget.
  rewrite (poll_funding_idle address h receipts k 60 0) by (done || lia).
  cbn [Nat.add].
  destruct (60 - k)%nat as [|left] eqn:Hleft; [lia|].
  cbn [poll_funding]. destruct (receipts k) as [r e']. cbn in He. subst e'.
  rewrite Hnf. cbn [negb fst snd]. done.
Qed.

End VaultKeysFacts.

Lemma Vault_keys_persist_witness :
  let E := sample_externals in
  let v := mkVault 167 0 (<[1042 := 42]> ∅) in
  let ops := [OpNextNonce; OpInsertKey 7; OpGenerateKey (inl ErrCanceled)] in
  is_Some (FindKey 1042 (foldl vault_apply v ops))
  /\ (Forall (fun op => stores_at op <> Some 1042) ops ->
      FindKey 1042 (foldl vault_apply v ops) = Some 42)
  /\ (forall key',
        FindKey (PubkeyToAddress key')
                (foldl vault_apply v (ops ++ [OpGenerateKey (inr key')]))
        = Some key'
        /\ FindKey (PubkeyToAddress key')
                   (foldl vault_apply v (ops ++ [OpInsertKey key']))
           = Some key').
Proof.
  intros E v ops. apply (@Vault_keys_persist E v ops 1042 42). reflexivity.
Defined.

Lemma CreateAccount_fails_fast_witness :
  let E := sample_externals in
  let receipts := fun i : nat =>
    if (i <? 2)%nat then (None, Some ErrNotFound)
    else (Some (mkReceipt 1 500 9), Some (ErrRPC 32000)) in
  let tx := mkTransaction (mkDynamicFeeTx 0 75000 GWei (30 * GWei) 1042 5) 167 in
  let v2 := mkVault 167 1 (<[1042 := 42]> ∅) in
  (forall err,
     CreateAccount (Some 5) (inr 42) (Some err) receipts (NewVault 167)
     = (FailNow (FatalErr "unable to send funding transaction: %v" err), v2,
        [EvSendTransaction tx]))
  /\ (forall k e,
        (k < 60)%nat ->
        (forall j, (j < k)%nat -> no_receipt (receipts j)) ->
        snd (receipts k) = Some e -> is_not_found e = false ->
        CreateAccount (Some 5) (inr 42) None receipts (NewVault 167)
        = (FailNow (FatalErr "error getting transaction receipt:" e), v2,
           EvSendTransaction tx :: idle_rounds 500 k ++ [EvTransactionReceipt 500])).
Proof.
  intros E receipts tx v2.
  apply (@CreateAccount_fails_fast E (Some 5) 42 receipts (NewVault 167) tx v2
           (mkDynamicFeeTx 0 75000 GWei (30 * GWei) 1042 5)).
  reflexivity.
Defined.

(** ** The wait primitives: what a result tells the caller *)

Lemma WaitReceipt_found status answers selects rc e :
  WaitReceipt status answers selects = Returned (Some rc, e) ->
  (Some rc, None) ∈ answers
  /\ forall status',
       WaitReceipt status' answers selects
       = Returned (Some rc,
                   if Status rc =? status' then None
                   else Some (ErrStatus status' (Status rc))).
Proof.
  revert selects. induction answers as [|[receipt err] answers IH];
    intros selects; cbn [WaitReceipt]; [done|].
  destruct (errors_Is_NotFound err) eqn:Hnf.
  - destruct selects as [|[ce|] selects]; try done.
    intros Hres. destruct (IH _ Hres) as [Hin Hall].
    split; [apply elem_of_cons; by right|done].
  - destruct err as [e'|]; [done|]. destruct receipt as [r|]; [|done].
    intros Hres. assert (r = rc) as -> by (by destruct (negb _); inversion Hres).
    split; [apply elem_of_cons; by left|]. intros status'.
    by destruct (Status rc =? status').
Qed.

(** X5: what a result of [WaitReceipt] means.  A nil error comes with a
    receipt that one of the queries returned and whose status is the
    expected one; a nil receipt comes with a non-nil error; no call
    returns nil for both. *)
Theorem WaitReceipt_result_shape status answers selects r e :
  WaitReceipt status answers selects = Returned (r, e) ->
  (e = None -> exists rc, r = Some rc /\ Status rc = status
                          /\ (Some rc, None) ∈ answers)
  /\ (r = None -> e <> None)
  /\ (forall rc, r = Some rc ->
        e = None \/ (Status rc <> status /\ e = Some (ErrStatus status (Status rc)))).
Proof.
  revert selects. induction answers as [|[receipt err] answers IH];
    intros selects; cbn [WaitReceipt]; [done|].
  destruct (errors_Is_NotFound err) eqn:Hnf.
  - destruct selects as [|[ce|] selects]; try done.
    + intros Hres. inversion Hres. done.
    + intros Hres. destruct (IH _ Hres) as (H1 & H2 & H3).
      split; [|done]. intros He. destruct (H1 He) as (rc & ? & ? & ?).
      exists rc. split; [done|]. split; [done|]. apply elem_of_cons; by right.
  - destruct err as [e'|].
    + intros Hres. inversion Hres. done.
    + destruct receipt as [rc|]; [|done].
      destruct (Z.eqb_spec (Status rc) status) as [Heq|Hne]; cbn [negb];
        intros Hres; inversion Hres; subst r e.
      * split; [|split; [done|by left]]. intros _. exists rc.
        split; [done|]. split; [done|]. apply elem_of_cons; by left.
      * split; [done|]. split; [done|]. intros rc' Hrc. inversion Hrc; subst rc'.
        right. done.
Qed.

Lemma WaitReceipt_result_shape_witness :
  let r := Some (mkReceipt 1 7 3) in
  let e : option error := None in
  (e = None -> exists rc, r = Some rc /\ Status rc = 1
       /\ (Some rc, None) ∈ [(None, Some ErrNotFound); (Some (mkReceipt 1 7 3), None)])
  /\ (r = None -> e <> None)
  /\ (forall rc, r = Some rc ->
        e = None \/ (Status rc <> 1 /\ e = Some (ErrStatus 1 (Status rc)))).
Proof.
  apply (WaitReceipt_result_shape 1
           [(None, Some ErrNotFound); (Some (mkReceipt 1 7 3), None)] [Tick]).
  reflexivity.
Defined.

(** X6: a transaction that never lands.  While every query answers
    not-found, [WaitReceipt] does not return as long as only ticks arrive,
    however many; it returns the context's error, with a nil receipt, at
    the first round in which the context is done. *)
Theorem WaitReceipt_never_lands status answers k e rest :
  Forall not_found_yet answers ->
  (k < length answers)%nat ->
  WaitReceipt status answers (replicate k Tick ++ CtxDone e :: rest)
  = Returned (None, Some (ctx_Err e))
  /\ forall m, WaitReceipt status answers (replicate m Tick) = Blocked.
Proof.
  intros Hall Hk. split.
  - revert k Hk. induction Hall as [|[receipt err] answers Hnf _ IH];
      intros k Hk; cbn [length] in Hk; [lia|].
    unfold not_found_yet in Hnf; cbn in Hnf. cbn [WaitReceipt]. rewrite Hnf.
    destruct k as [|k]; cbn [replicate app]; [done|]. apply IH. lia.
  - clear Hk. induction Hall as [|[receipt err] answers Hnf _ IH]; intros m; [done|].
    unfold not_found_yet in Hnf; cbn in Hnf. cbn [WaitReceipt]. rewrite Hnf.
    destruct m as [|m]; cbn [replicate]; [done|]. apply IH.
Qed.

Lemma WaitReceipt_never_lands_witness :
  WaitReceipt 1 (replicate 3 (None, Some ErrNotFound))
              (replicate 2 Tick ++ CtxDone DeadlineExceeded :: [])
  = Returned (None, Some (ctx_Err DeadlineExceeded))
  /\ forall m, WaitReceipt 1 (replicate 3 (None, Some ErrNotFound)) (replicate m Tick)
               = Blocked.
Proof.
  apply (WaitReceipt_never_lands 1 (replicate 3 (None, Some ErrNotFound)) 2
           DeadlineExceeded []).
  - repeat constructor.
  - cbn. lia.
Defined.

(** X7: [WaitReceiptOK] and [WaitReceiptFailed] never both succeed on the
    same transaction: when one of them returns a receipt without error,
    the other returns the same receipt with the status-mismatch error. *)
Theorem WaitReceiptOK_Failed_exclusive answers selects rc :
  (WaitReceiptOK answers selects = Returned (Some rc, None) ->
   WaitReceiptFailed answers selects
   = Returned (Some rc, Some (ErrStatus ReceiptStatusFailed ReceiptStatusSuccessful)))
  /\ (WaitReceiptFailed answers selects = Returned (Some rc, None) ->
      WaitReceiptOK answers selects
      = Returned (Some rc, Some (ErrStatus ReceiptStatusSuccessful ReceiptStatusFailed))).
Proof.
  unfold WaitReceiptOK, WaitReceiptFailed. split; intros Hres.
  - destruct (WaitReceipt_found _ _ _ _ _ Hres) as [_ Hall].
    pose proof (Hall ReceiptStatusSuccessful) as Hsame. rewrite Hres in Hsame.
    destruct (Z.eqb_spec (Status rc) ReceiptStatusSuccessful) as [Hst|Hst];
      [|by inversion Hsame].
    rewrite (Hall ReceiptStatusFailed), Hst. done.
  - destruct (WaitReceipt_found _ _ _ _ _ Hres) as [_ Hall].
    pose proof (Hall ReceiptStatusFailed) as Hsame. rewrite Hres in Hsame.
    destruct (Z.eqb_spec (Status rc) ReceiptStatusFailed) as [Hst|Hst];
      [|by inversion Hsame].
    rewrite (Hall ReceiptStatusSuccessful), Hst. done.
Qed.

Lemma WaitReceiptOK_Failed_exclusive_witness :
  (WaitReceiptOK [(None, Some ErrNotFound); (Some (mkReceipt 1 7 3), None)] [Tick]
   = Returned (Some (mkReceipt 1 7 3), None) ->
   WaitReceiptFailed [(None, Some ErrNotFound); (Some (mkReceipt 1 7 3), None)] [Tick]
   = Returned (Some (mkReceipt 1 7 3),
               Some (ErrStatus ReceiptStatusFailed ReceiptStatusSuccessful)))
  /\ (WaitReceiptFailed [(None, Some ErrNotFound); (Some (mkReceipt 1 7 3), None)] [Tick]
      = Returned (Some (mkReceipt 1 7 3), None) ->
      WaitReceiptOK [(None, Some ErrNotFound); (Some (mkReceipt 1 7 3), None)] [Tick]
      = Returned (Some (mkReceipt 1 7 3),
                  Some (ErrStatus ReceiptStatusSuccessful ReceiptStatusFailed))).
Proof.
  apply (WaitReceiptOK_Failed_exclusive
           [(None, Some ErrNotFound); (Some (mkReceipt 1 7 3), None)] [Tick]
           (mkReceipt 1 7 3)).
Defined.

(** X8: [WaitBlock] returns nil only at the target.  In both versions, a
    call that returned nil saw a height at or above the target in its
    last query, heights below the target in all queries before, and
    slept 500ms once per earlier query; the version that returns errors
    returned the error of its last query, under the same conditions. *)
Theorem WaitBlock_returns_at_target n heights sleeps :
  (HelperGo.WaitBlock n heights = (Returned None, sleeps)
   \/ DevnetGo.WaitBlock n heights = (Returned None, sleeps) ->
   exists lows h rest,
     heights = lows ++ (h, None) :: rest
     /\ Forall (below n) lows /\ n <= h
     /\ sleeps = replicate (length lows) 500)
  /\ (forall e,
        DevnetGo.WaitBlock n heights = (Returned (Some e), sleeps) ->
        exists lows h rest,
          heights = lows ++ (h, Some e) :: rest
          /\ Forall (below n) lows
          /\ sleeps = replicate (length lows) 500).
Proof.
  split.
  - revert sleeps. induction heights as [|[h err] heights IH]; intros sleeps;
      cbn [HelperGo.WaitBlock DevnetGo.WaitBlock]; [by intros [|]|].
    destruct err as [e|]; [by intros [|]|].
    destruct (Z.ltb_spec h n) as [Hlt|Hge].
    + destruct (HelperGo.WaitBlock n heights) as [res1 sl1].
      destruct (DevnetGo.WaitBlock n heights) as [res2 sl2].
      intros Hres.
      assert (exists sl, sleeps = block_poll_ms :: sl
                /\ ((res1, sl1) = (Returned None, sl)
                    \/ (res2, sl2) = (Returned None, sl))) as (sl & Hsleeps & Hsl).
      { destruct Hres as [Hres|Hres]; inversion Hres; eauto. }
      destruct (IH _ Hsl) as (lows & h' & rest & Hheights & Hlows & Hh' & Hsl').
      exists ((h, None) :: lows), h', rest. rewrite Hheights, Hsleeps, Hsl'.
      split; [done|]. split; [by constructor|]. done.
    + intros Hres. exists [], h, heights. split; [done|]. split; [constructor|].
      split; [lia|]. by destruct Hres as [Hres|Hres]; inversion Hres.
  - intros e. revert sleeps. induction heights as [|[h err] heights IH];
      intros sleeps; cbn [DevnetGo.WaitBlock]; [done|].
    destruct err as [e'|].
    + intros Hres. inversion Hres. by exists [], h, heights.
    + destruct (Z.ltb_spec h n) as [Hlt|Hge]; [|done].
      destruct (DevnetGo.WaitBlock n heights) as [res2 sl2].
      intros Hres. inversion Hres; subst res2 sleeps.
      destruct (IH _ eq_refl) as (lows & h' & rest & Hheights & Hlows & Hsl').
      exists ((h, None) :: lows), h', rest. rewrite Hheights, Hsl'.
      split; [done|]. split; [by constructor|]. done.
Qed.

Lemma WaitBlock_returns_at_target_witness :
  (exists lows h rest,
     [(0, None); (1, None); (2, None)] = lows ++ (h, None) :: rest
     /\ Forall (below 2) lows /\ 2 <= h
     /\ [500; 500] = replicate (length lows) 500).
Proof.
  apply (WaitBlock_returns_at_target 2 [(0, None); (1, None); (2, None)] [500; 500]).
  left. reflexivity.
Defined.

(** ** The wait primitives on subscriptions *)

Lemma geb_false_lt x y : x < y -> (x >=? y) = false.
Proof. intros. rewrite Z.geb_leb. apply Z.leb_gt. lia. Qed.

Lemma geb_true_le x y : y <= x -> (x >=? y) = true.
Proof. intros. rewrite Z.geb_leb. apply Z.leb_le. lia. Qed.

Lemma newhead_loop_skip wantHeight skipped rest :
  Forall (head_ignored wantHeight) skipped ->
  newhead_loop wantHeight (skipped ++ rest) = newhead_loop wantHeight rest.
Proof.
  induction 1 as [|x skipped Hx _ IH]; [done|].
  destruct x as [number|[e|]|]; cbn in Hx; try done; cbn [app newhead_loop].
  by rewrite geb_false_lt.
Qed.

(** X9: [WaitNewHead] checks the subscription error before it defers
    [Unsubscribe], so a failed subscription ends the test cleanly.  With a
    subscription it passes over heads below the wanted height and over
    nil errors, returns at the first head at or above the wanted height,
    ends the test on a subscription error or when the context is done,
    and in each of these cases unsubscribes once on the way out. *)
Theorem WaitNewHead_behaviour s wantHeight skipped rest :
  Forall (head_ignored wantHeight) skipped ->
  (forall sub e selects,
     WaitNewHead (sub, Some e) wantHeight selects = (FailNow (RequireNoError e), []))
  /\ (forall number, wantHeight <= number ->
        WaitNewHead (Some s, None) wantHeight (skipped ++ HeadArrived number :: rest)
        = (Returned tt, [EffUnsubscribe s]))
  /\ (forall e,
        WaitNewHead (Some s, None) wantHeight (skipped ++ HeadSubErr (Some e) :: rest)
        = (FailNow (RequireNoError e), [EffUnsubscribe s]))
  /\ WaitNewHead (Some s, None) wantHeight (skipped ++ HeadCtxDone :: rest)
     = (FailNow (Fatal "program close before test finish"), [EffUnsubscribe s])
  /\ WaitNewHead (Some s, None) wantHeight skipped = (Blocked, []).
Proof.
  intros Hs. split; [done|]. unfold WaitNewHead.
  rewrite !(newhead_loop_skip _ _ _ Hs).
  pose proof (newhead_loop_skip wantHeight skipped [] Hs) as Hnil.
  rewrite app_nil_r in Hnil. rewrite Hnil.
  cbn [newhead_loop]. split; [|split; [|done]].
  - intros number Hn. rewrite (newhead_loop_skip _ _ _ Hs). cbn [newhead_loop].
    by rewrite geb_true_le.
  - intros e. by rewrite (newhead_loop_skip _ _ _ Hs).
Qed.

Lemma WaitNewHead_behaviour_witness :
  (forall sub e selects,
     WaitNewHead (sub, Some e) 3 selects = (FailNow (RequireNoError e), []))
  /\ (forall number, 3 <= number ->
        WaitNewHead (Some 9, None) 3
          ([HeadArrived 1; HeadSubErr None; HeadArrived 2] ++ HeadArrived number :: [])
        = (Returned tt, [EffUnsubscribe 9]))
  /\ (forall e,
        WaitNewHead (Some 9, None) 3
          ([HeadArrived 1; HeadSubErr None; HeadArrived 2] ++ HeadSubErr (Some e) :: [])
        = (FailNow (RequireNoError e), [EffUnsubscribe 9]))
  /\ WaitNewHead (Some 9, None) 3
       ([HeadArrived 1; HeadSubErr None; HeadArrived 2] ++ HeadCtxDone :: [])
     = (FailNow (Fatal "program close before test finish"), [EffUnsubscribe 9])
  /\ WaitNewHead (Some 9, None) 3 [HeadArrived 1; HeadSubErr None; HeadArrived 2]
     = (Blocked, []).
Proof.
  apply (WaitNewHead_behaviour 9 3 [HeadArrived 1; HeadSubErr None; HeadArrived 2] []).
  repeat constructor; cbn; lia.
Defined.

Lemma prove_loop_skip skipped rest :
  Forall prove_ignored skipped ->
  prove_loop (skipped ++ rest) = prove_loop rest.
Proof.
  induction 1 as [|x skipped Hx _ IH]; [done|].
  destruct x as [e|id|]; cbn in Hx; try done. cbn [app prove_loop].
  by rewrite (proj2 (Z.eqb_neq id 1) Hx).
Qed.

Lemma prove_loop_result selects res log :
  prove_loop selects = (res, log) ->
  unsubscribes log = 0%nat
  /\ (res = Returned tt -> BlockProven 1 ∈ selects \/ ProveCtxDone ∈ selects).
Proof.
  revert res log. induction selects as [|x selects IH]; intros res log;
    cbn [prove_loop].
  - intros Hres; inversion Hres. done.
  - destruct x as [e|id|].
    + intros Hres; inversion Hres. done.
    + destruct (Z.eqb_spec id 1) as [->|Hne].
      * intros Hres; inversion Hres. split; [done|]. intros _. left.
        apply elem_of_cons; by left.
      * intros Hres. destruct (IH _ _ Hres) as [H1 H2]. split; [done|].
        intros Hr. destruct (H2 Hr); [left|right]; apply elem_of_cons; by right.
    + intros Hres; inversion Hres. split; [done|]. intros _. right.
      apply elem_of_cons; by left.
Qed.

(** X10: [WaitProveEvent] with a subscription at hand.  Whatever heights
    the caller asked for, it passes over every proven event whose id is
    not 1, returns at the first event with id 1 or, with a log line, when
    the context is done, and ends the test on a subscription error.
    Every run that ends has unsubscribed exactly once, as its last
    effect, and a run that returned saw an event with id 1 or the end of
    the context. *)
Theorem WaitProveEvent_subscribed s skipped rest :
  Forall prove_ignored skipped ->
  WaitProveEvent (Some s, None) (skipped ++ BlockProven 1 :: rest)
  = (Returned tt, [EffUnsubscribe s])
  /\ WaitProveEvent (Some s, None) (skipped ++ ProveCtxDone :: rest)
     = (Returned tt, [EffLog "test is finished before watch proved event";
                      EffUnsubscribe s])
  /\ (forall e,
        WaitProveEvent (Some s, None) (skipped ++ SubErr e :: rest)
        = (FailNow (FatalErr "Failed to watch prove event" e), [EffUnsubscribe s]))
  /\ WaitProveEvent (Some s, None) skipped = (Blocked, [])
  /\ (forall selects res log,
        WaitProveEvent (Some s, None) selects = (res, log) ->
        res <> Blocked ->
        unsubscribes log = 1%nat /\ last log = Some (EffUnsubscribe s)
        /\ (res = Returned tt ->
            BlockProven 1 ∈ selects \/ ProveCtxDone ∈ selects)).
Proof.
  intros Hs. unfold WaitProveEvent.
  rewrite !(prove_loop_skip _ _ Hs).
  pose proof (prove_loop_skip skipped [] Hs) as Hnil.
  rewrite app_nil_r in Hnil. rewrite Hnil.
  cbn [prove_loop Z.eqb Pos.eqb app].
  split; [done|]. split; [done|].
  split; [intros e; by rewrite (prove_loop_skip _ _ Hs)|]. split; [done|].
  intros selects res log.
  destruct (prove_loop selects) as [res0 log0] eqn:Hloop.
  destruct (prove_loop_result _ _ _ Hloop) as [Hcount Hret].
  assert (unsubscribes (log0 ++ [EffUnsubscribe s]) = 1%nat) as Hone.
  { clear -Hcount. induction log0 as [|x log0 IH]; [done|].
    cbn in *. destruct (is_unsubscribe x); [lia|]. apply IH. lia. }
  destruct res0 as [[]|f|p|]; intros Hres; inversion Hres; subst; intros Hnb;
    try done; (split; [done|]; split; [apply last_snoc|done]).
Qed.

Lemma WaitProveEvent_subscribed_witness :
  WaitProveEvent (Some 9, None) ([BlockProven 2; BlockProven 0] ++ BlockProven 1 :: [])
  = (Returned tt, [EffUnsubscribe 9])
  /\ WaitProveEvent (Some 9, None) ([BlockProven 2; BlockProven 0] ++ ProveCtxDone :: [])
     = (Returned tt, [EffLog "test is finished before watch proved event";
                      EffUnsubscribe 9])
  /\ (forall e,
        WaitProveEvent (Some 9, None) ([BlockProven 2; BlockProven 0] ++ SubErr e :: [])
        = (FailNow (FatalErr "Failed to watch prove event" e), [EffUnsubscribe 9]))
  /\ WaitProveEvent (Some 9, None) [BlockProven 2; BlockProven 0] = (Blocked, [])
  /\ (forall selects res log,
        WaitProveEvent (Some 9, None) selects = (res, log) ->
        res <> Blocked ->
        unsubscribes log = 1%nat /\ last log = Some (EffUnsubscribe 9)
        /\ (res = Returned tt ->
            BlockProven 1 ∈ selects \/ ProveCtxDone ∈ selects)).
Proof.
  apply (WaitProveEvent_subscribed 9 [BlockProven 2; BlockProven 0] []).
  repeat constructor; cbn; lia.
Defined.

(** ** The Devnet: looking nodes up *)

Lemma get_node_spec (engines : list ELNode) idx (fail : failure) n :
  (if (idx <? 0) || (idx >=? Z.of_nat (length engines))
   then FailNow fail
   else match engines !! Z.to_nat idx with
        | Some m => Returned m
        | None => Panicked IndexOutOfRange
        end) = Returned n
  <-> 0 <= idx /\ engines !! Z.to_nat idx = Some n.
Proof.
  destruct (Z.ltb_spec idx 0) as [Hneg|Hpos]; cbn [orb].
  - split; [done|]. intros [? _]. lia.
  - destruct (idx >=? Z.of_nat (length engines)) eqn:Hge.
    + split; [done|]. intros [_ Hn]. apply lookup_lt_Some in Hn.
      rewrite Z.geb_leb in Hge. apply Z.leb_le in Hge. lia.
    + destruct (engines !! Z.to_nat idx) as [m|] eqn:Hm.
      * split; [by intros [= ->]|]. by intros [_ [= ->]].
      * split; [done|]. by intros [_ ?].
Qed.

Lemma get_node_no_panic (engines : list ELNode) idx (fail : failure) p :
  (if (idx <? 0) || (idx >=? Z.of_nat (length engines))
   then FailNow fail
   else match engines !! Z.to_nat idx with
        | Some m => Returned m
        | None => Panicked IndexOutOfRange
        end) <> Panicked p.
Proof.
  destruct (Z.ltb_spec idx 0) as [Hneg|Hpos]; cbn [orb]; [done|].
  destruct (idx >=? Z.of_nat (length engines)) eqn:Hge; [done|].
  rewrite Z.geb_leb in Hge. apply Z.leb_gt in Hge.
  destruct (lookup_lt_is_Some_2 engines (Z.to_nat idx) ltac:(lia)) as [m ->].
  done.
Qed.

(** X11: [GetL1ELNode] and [GetL2ELNode] return a node exactly for an
    index inside the sequence, namely the node at that position; for a
    negative index or one past the end they end the test, and they never
    panic on an index. *)
Theorem GetELNode_bounds idx d :
  (forall n, GetL1ELNode idx d = Returned n
             <-> 0 <= idx /\ l1Engines d !! Z.to_nat idx = Some n)
  /\ (forall n, GetL2ELNode idx d = Returned n
                <-> 0 <= idx /\ l2Engines d !! Z.to_nat idx = Some n)
  /\ (idx < 0 \/ Z.of_nat (length (l1Engines d)) <= idx ->
      GetL1ELNode idx d = FailNow (Fatal "only have %d L1 nodes, cannot find %d"))
  /\ (idx < 0 \/ Z.of_nat (length (l2Engines d)) <= idx ->
      GetL2ELNode idx d
      = FailNow (Fatal "only have %d taiko geth nodes, cannot find %d"))
  /\ (forall p, GetL1ELNode idx d <> Panicked p /\ GetL2ELNode idx d <> Panicked p).
Proof.
  split; [intros n; apply get_node_spec|].
  split; [intros n; apply get_node_spec|].
  split; [|split].
  - intros Hout. unfold GetL1ELNode.
    destruct (Z.ltb_spec idx 0); cbn [orb]; [done|].
    by rewrite geb_true_le by lia.
  - intros Hout. unfold GetL2ELNode.
    destruct (Z.ltb_spec idx 0); cbn [orb]; [done|].
    by rewrite geb_true_le by lia.
  - intros p. split; apply get_node_no_panic.
Qed.

(** ** The Devnet: adding an L2 engine *)

Lemma lock_depth_app log1 log2 :
  lock_depth (log1 ++ log2) = lock_depth log1 + lock_depth log2.
Proof.
  induction log1 as [|e log1 IH]; cbn [app lock_depth]; [lia|].
  destruct e; rewrite ?IH; lia.
Qed.

Lemma collect_bootnodes_log enode engines :
  lock_depth (snd (collect_bootnodes enode engines)) = 0
  /\ Forall (fun e => ~ is_l2_start e) (snd (collect_bootnodes enode engines)).
Proof.
  induction engines as [|n engines [IH1 IH2]]; cbn [collect_bootnodes].
  - split; [done|constructor].
  - destruct (enode n) as [err|url]; cbn.
    + split; [done|]. constructor; [cbn; tauto|constructor].
    + destruct (collect_bootnodes enode engines) as [res log]. cbn in *.
      split; [done|]. constructor; [tauto|done].
Qed.

Lemma collect_bootnodes_ok enode engines :
  (forall m, m ∈ engines -> exists url, enode m = inr url) ->
  exists urls,
    fst (collect_bootnodes enode engines) = inr urls
    /\ Forall2 (fun m url => enode m = inr url) engines urls.
Proof.
  induction engines as [|n engines IH]; intros Hall; cbn [collect_bootnodes].
  - exists []. split; [done|constructor].
  - destruct (Hall n ltac:(apply elem_of_cons; by left)) as [url Hurl].
    rewrite Hurl.
    destruct IH as (urls & Hres & Hurls).
    { intros m Hm. apply Hall. apply elem_of_cons; by right. }
    destruct (collect_bootnodes enode engines) as [res log]. cbn in *. subst res.
    exists (url :: urls). split; [done|]. by constructor.
Qed.

Lemma collect_bootnodes_fail enode engines m e :
  m ∈ engines -> enode m = inl e ->
  exists e', fst (collect_bootnodes enode engines) = inl e'.
Proof.
  induction engines as [|n engines IH]; intros Hm He; [by inversion Hm|].
  cbn [collect_bootnodes]. destruct (enode n) as [err|url] eqn:Hn; [by eexists|].
  apply elem_of_cons in Hm as [->|Hm]; [congruence|].
  destruct (IH Hm He) as [e' He'].
  destruct (collect_bootnodes enode engines) as [res log]. cbn in *. subst res.
  by eexists.
Qed.

(** X12: [AddL2ELNode].  When it returns the engine [n], [n] was started
    with the enode URLs of all L2 engines already in the Devnet as boot
    nodes, in their order (none for the first engine), [n] is the one
    entry added to the L2 sequence, and the Devnet lock is free again.
    When the enode URL of some earlier engine cannot be had, the test is
    ended before anything is started, the Devnet is unchanged, and the
    lock taken for the loop is never released.  In every other run the
    lock is free at the end. *)
Theorem AddL2ELNode_bootnodes_and_lock clientIdx a d :
  exists res d' log,
    AddL2ELNode clientIdx a d = (res, d', log)
    /\ (forall n, res = Returned n ->
          l2Engines d' = l2Engines d ++ [n]
          /\ l1Engines d' = l1Engines d /\ provers d' = provers d
          /\ el_rollup n = L2RollupAddress (c d)
          /\ lock_depth log = 0
          /\ exists name urls,
               Forall2 (fun m url => enode_url a m = inr url) (l2Engines d) urls
               /\ L2StartClient name urls (el_client n) ∈ log)
    /\ ((exists m e, m ∈ l2Engines d /\ enode_url a m = inl e) ->
          (exists f, res = FailNow f) /\ d' = d
          /\ lock_depth log = 1
          /\ Forall (fun e => ~ is_l2_start e) log)
    /\ ((forall m, m ∈ l2Engines d -> exists url, enode_url a m = inr url) ->
          lock_depth log = 0).
Proof.
  unfold AddL2ELNode.
  pose proof (collect_bootnodes_log (enode_url a) (l2Engines d)) as [Hdepth Hnostart].
  destruct (collect_bootnodes (enode_url a) (l2Engines d)) as [boot log1] eqn:Hboot.
  cbn [snd] in Hdepth, Hnostart.
  assert (lock_depth (L2Lock :: log1 ++ [L2Unlock]) = 0) as Hbal.
  { cbn [lock_depth]. rewrite lock_depth_app. cbn. lia. }
  destruct boot as [err|urls].
  - (* an enode URL is missing *)
    eexists _, _, _. split; [reflexivity|]. split; [done|]. split; [|].
    + intros _. split; [by eexists|]. split; [done|].
      split; [cbn [lock_depth]; lia|]. constructor; [cbn; tauto|done].
    + intros Hall. destruct (collect_bootnodes_ok _ _ Hall) as (urls & Hres & _).
      rewrite Hboot in Hres. done.
  - assert (forall m e, m ∈ l2Engines d -> enode_url a m = inl e -> False) as Hgood.
    { intros m e Hm He. destruct (collect_bootnodes_fail _ _ _ _ Hm He) as [e' He'].
      rewrite Hboot in He'. done. }
    assert (Forall2 (fun m url => enode_url a m = inr url) (l2Engines d) urls)
      as Hurls.
    { destruct (collect_bootnodes_ok (enode_url a) (l2Engines d)) as (urls' & Hres & Hu).
      - intros m Hm. destruct (enode_url a m) as [e|url] eqn:Hm'; [|by eexists].
        destruct (Hgood _ _ Hm Hm').
      - rewrite Hboot in Hres. by inversion Hres. }
    destruct (L2 (clients d) !! clientIdx) as [def|];
      [|eexists _, _, _; split; [reflexivity|]; split; [done|]; split;
        [intros (m & e & Hm & He); destruct (Hgood _ _ Hm He)|done]].
    destruct (start_l2 a) as [cl|];
      [|eexists _, _, _; split; [reflexivity|]; split; [done|]; split;
        [intros (m & e & Hm & He); destruct (Hgood _ _ Hm He)|done]].
    destruct (l2_chain_id a) as [err|].
    + eexists _, _, _; split; [reflexivity|]; split; [done|]; split;
        [intros (m & e & Hm & He); destruct (Hgood _ _ Hm He)|].
      intros _. rewrite lock_depth_app. cbn [lock_depth] in *. lia.
    + eexists _, _, _; split; [reflexivity|].
      assert (lock_depth
                ((L2Lock :: log1 ++ [L2Unlock]) ++
                 [L2StartClient (Name def) urls cl;
                  L2ChainID {| el_client := cl; el_rollup := L2RollupAddress (c d) |}]
                 ++ [L2Lock;
                     L2Append {| el_client := cl; el_rollup := L2RollupAddress (c d) |};
                     L2Unlock]) = 0) as Hfinal.
      { rewrite !lock_depth_app. cbn [lock_depth] in *. lia. }
      rewrite <- app_assoc.
      split; [|split; [intros (m & e & Hm & He); destruct (Hgood _ _ Hm He)|done]].
      intros n Hn. inversion Hn; subst n. cbn [l2Engines l1Engines provers el_rollup el_client].
      split; [done|]. split; [done|]. split; [done|]. split; [done|].
      split; [done|]. exists (Name def), urls. split; [done|].
      apply elem_of_app; right. apply elem_of_cons; by left.
Qed.

Example AddL2ELNode_second_engine :
  let d := mkDevnet (c sample_devnet) (clients sample_devnet) []
             [mkELNode 20 2] [] in
  AddL2ELNode 0 (mkL2Answers (fun _ => inr "enode://a"%string) (Some 21) None) d
  = (Returned (mkELNode 21 2),
     mkDevnet (c sample_devnet) (clients sample_devnet) []
       [mkELNode 20 2; mkELNode 21 2] [],
     [L2Lock; L2EnodeURL (mkELNode 20 2); L2Unlock;
      L2StartClient "l2" ["enode://a"%string] 21; L2ChainID (mkELNode 21 2);
      L2Lock; L2Append (mkELNode 21 2); L2Unlock]).
Proof. reflexivity. Qed.

Example AddL2ELNode_lock_left_held :
  let d := mkDevnet (c sample_devnet) (clients sample_devnet) []
             [mkELNode 20 2] [] in
  AddL2ELNode 0 (mkL2Answers (fun _ => inl (ErrRPC 1)) (Some 21) None) d
  = (FailNow (FatalErr "failed to get enode url of the first taiko geth node, error: %w"
                (ErrRPC 1)),
     d, [L2Lock; L2EnodeURL (mkELNode 20 2)]).
Proof. reflexivity. Qed.

(** ** The Devnet: sequences only grow *)

Lemma grows_refl d : grows d d.
Proof. by repeat split. Qed.

Lemma grows_trans d1 d2 d3 : grows d1 d2 -> grows d2 d3 -> grows d1 d3.
Proof.
  intros (H1 & H2 & H3 & H4 & H5) (K1 & K2 & K3 & K4 & K5).
  repeat split; try congruence; by etrans.
Qed.

Lemma AddL1ELNode_grows Idx a d : grows d (snd (fst (AddL1ELNode Idx a d))).
Proof.
  destruct a as [sl1 cid sc [result err]].
  destruct d as [cfg [L1s L2s Drs Pps Pvs Ctr] l1e l2e pv].
  unfold AddL1ELNode; cbn. unfold bind at 1, get. cbn.
  destruct L1s as [|def0 L1s]; cbn [length Nat.eqb]; [apply grows_refl|].
  destruct ((def0 :: L1s) !! Idx) as [def|]; [|apply grows_refl].
  unfold StartClient, WaitELNodesUp, deployL1Contracts, append_l1.
  destruct sl1 as [cl|]; unfold bind, get, put, emit, ret, fatal, throw; cbn;
    [|apply grows_refl].
  destruct cid as [e1|]; cbn; [apply grows_refl|].
  destruct Ctr as [cdef|]; cbn; [|apply grows_refl].
  destruct sc as [ccl|]; cbn; [|apply grows_refl].
  destruct err as [e2|]; cbn; [apply grows_refl|].
  destruct result as [r|]; cbn; [|apply grows_refl].
  destruct (ExitCode r =? 0); cbn; [|apply grows_refl].
  repeat split; cbn; try done. by apply prefix_app_r.
Qed.

Lemma AddL2ELNode_grows clientIdx a d :
  grows d (snd (fst (AddL2ELNode clientIdx a d))).
Proof.
  unfold AddL2ELNode.
  destruct (collect_bootnodes _ _) as [[err|urls] log1]; [apply grows_refl|].
  destruct (L2 (clients d) !! clientIdx) as [def|]; [|apply grows_refl].
  destruct (start_l2 a) as [cl|]; [|apply grows_refl].
  destruct (l2_chain_id a) as [err|]; [apply grows_refl|].
  repeat split; cbn; try done. by apply prefix_app_r.
Qed.

Lemma AddProverNode_grows l1 l2 a d :
  grows d (snd (fst (AddProverNode l1 l2 a d))).
Proof.
  unfold AddProverNode, bind at 1, get.
  destruct (Prover (clients d)) as [|def defs]; cbn [length Nat.eqb];
    [apply grows_refl|].
  unfold bind at 1.
  destruct (addWhitelist_cases a d)
    as [(tx & _ & ->)|(_ & res & log & -> & _ & _)].
  - cbn [lookup list_lookup]. unfold StartClient.
    destruct (start_prover a) as [cl|];
      unfold bind, emit, ret, fatal, append_prover, get, put; cbn;
      [|apply grows_refl].
    repeat split; cbn; try done. by apply prefix_app_r.
  - destruct res as [[e|]|f|p|]; unfold fatal; cbn; try apply grows_refl.
    cbn [lookup list_lookup]. unfold StartClient.
    destruct (start_prover a) as [cl|];
      unfold bind, emit, ret, fatal, append_prover, get, put; cbn;
      [|apply grows_refl].
    repeat split; cbn; try done. by apply prefix_app_r.
Qed.

(** X13: the node sequences of a Devnet are append-only.  Whatever
    series of [AddL1ELNode], [AddL2ELNode] and [AddProverNode] calls runs,
    and however each of them ends, the configuration and the client
    types stay the same, every sequence keeps its entries at their
    positions, and a node that [GetL1ELNode] or [GetL2ELNode] returned for
    an index is returned for that index ever after. *)
Theorem Devnet_append_only d ops :
  let d' := foldl devnet_apply d ops in
  c d' = c d /\ clients d' = clients d
  /\ l1Engines d `prefix_of` l1Engines d'
  /\ l2Engines d `prefix_of` l2Engines d'
  /\ provers d `prefix_of` provers d'
  /\ (forall idx n, GetL1ELNode idx d = Returned n -> GetL1ELNode idx d' = Returned n)
  /\ (forall idx n, GetL2ELNode idx d = Returned n -> GetL2ELNode idx d' = Returned n).
Proof.
  intros d'. assert (grows d d') as Hg.
  { subst d'. revert d. induction ops as [|op ops IH]; intros d; cbn [foldl];
      [apply grows_refl|].
    eapply grows_trans; [|apply IH].
    destruct op; cbn [devnet_apply];
      [apply AddL1ELNode_grows|apply AddL2ELNode_grows|apply AddProverNode_grows]. }
  destruct Hg as (H1 & H2 & H3 & H4 & H5).
  split; [done|]. split; [done|]. split; [done|]. split; [done|]. split; [done|].
  split; intros idx n Hget.
  - apply get_node_spec in Hget as [Hpos Hn]. apply get_node_spec.
    split; [done|]. by eapply prefix_lookup_Some.
  - apply get_node_spec in Hget as [Hpos Hn]. apply get_node_spec.
    split; [done|]. by eapply prefix_lookup_Some.
Qed.

(** ** TestEnv: at most one live timeout context *)

Lemma is_cancelled_app_l i w l :
  (i < length w)%nat -> is_cancelled i (w ++ l) = is_cancelled i w.
Proof. intros. unfold is_cancelled. by rewrite lookup_app_l. Qed.

Lemma is_cancelled_cancel_ne p i w :
  p <> i -> is_cancelled i (cancel p w) = is_cancelled i w.
Proof. intros. unfold is_cancelled. by rewrite cancel_other. Qed.

Lemma length_cancel p w : length (cancel p w) = length w.
Proof. unfold cancel. apply length_alter. Qed.

Lemma TimeoutCtx_ctx_inv w0 k timeout t w :
  ctx_inv w0 k t w ->
  exists t' w',
    TimeoutCtx timeout t w = (Returned (length w), t', w')
    /\ ctx_inv w0 (S k) t' w'.
Proof.
  intros (Hlen & Htake & Hslot & Hold).
  unfold TimeoutCtx, context_WithTimeout.
  destruct (lastCtx t) as [p|] eqn:Hlast.
  - destruct Hslot as (-> & Hp & Hk & Hlive).
    rewrite length_cancel. eexists _, _. split; [reflexivity|].
    unfold ctx_inv. cbn [lastCtx lastCancel].
    rewrite length_app, length_cancel. cbn [length].
    split; [lia|]. split.
    { rewrite take_app_le by (rewrite length_cancel; lia).
      unfold cancel. rewrite take_alter_ge by lia. done. }
    split.
    { split; [done|]. split; [lia|]. split; [lia|].
      unfold is_cancelled. rewrite <- (length_cancel p w).
      by rewrite list_lookup_middle. }
    intros j Hj. rewrite is_cancelled_app_l by (rewrite length_cancel; lia).
    destruct (decide (p = length w0 + j)%nat) as [->|Hne].
    + apply is_cancelled_cancel. lia.
    + rewrite is_cancelled_cancel_ne by done. apply Hold. lia.
  - subst k. eexists _, _. split; [reflexivity|].
    unfold ctx_inv. cbn [lastCtx lastCancel]. rewrite length_app. cbn [length].
    split; [lia|]. split.
    { rewrite take_app_le by lia. done. }
    split.
    { split; [done|]. split; [lia|]. split; [lia|].
      unfold is_cancelled. by rewrite list_lookup_middle. }
    intros j Hj. lia.
Qed.

Lemma issue_contexts_ctx_inv w0 k timeouts t w :
  ctx_inv w0 k t w ->
  ctx_inv w0 (k + length timeouts) (fst (issue_contexts timeouts t w))
          (snd (issue_contexts timeouts t w)).
Proof.
  revert k t w. induction timeouts as [|timeout timeouts IH]; intros k t w Hinv.
  - cbn. by rewrite Nat.add_0_r.
  - cbn [issue_contexts length].
    destruct (TimeoutCtx_ctx_inv _ _ timeout _ _ Hinv) as (t' & w' & -> & Hinv').
    replace (k + S (length timeouts))%nat with (S k + length timeouts)%nat by lia.
    by apply IH.
Qed.

(** X14: a test body that asks for timeout contexts any number of times,
    on a TestEnv whose slot was empty, never has more than one of them
    live: of the [k] contexts issued, all but the last are cancelled, the
    last is live and sits in the slot, and the contexts that existed
    before are untouched.  When the body returns, the cancel at the end
    of the [Run] closure of [RunTests] cancels the last one too, so that
    none of the [k] contexts is left live.  When the body ends through
    [t.Fatal] or [require.*], that cancel is skipped: the closure leaves
    the table as the body left it, with the last context issued still
    live. *)
Theorem Ctx_at_most_one_live timeouts t w :
  lastCtx t = None ->
  let k := length timeouts in
  let '(t', w') := issue_contexts timeouts t w in
  length w' = (length w + k)%nat
  /\ take (length w) w' = w
  /\ (forall j, (S j < k)%nat -> is_cancelled (length w + j) w' = true)
  /\ ((0 < k)%nat ->
      lastCtx t' = Some (length w + k - 1)%nat
      /\ is_cancelled (length w + k - 1) w' = false)
  /\ (exists w'',
        Run_closure timeouts BodyReturns t w = (Returned tt, t', w'')
        /\ take (length w) w'' = w
        /\ forall j, (j < k)%nat -> is_cancelled (length w + j) w'' = true)
  /\ (forall f,
        Run_closure timeouts (BodyGoexit f) t w = (FailNow f, t', w')
        /\ ((0 < k)%nat -> is_cancelled (length w + k - 1) w' = false)).
Proof.
  intros Hempty k.
  assert (ctx_inv w 0 t w) as Hinv0.
  { unfold ctx_inv. rewrite Hempty, Nat.add_0_r, firstn_all. repeat split; lia. }
  pose proof (issue_contexts_ctx_inv w 0 timeouts t w Hinv0) as Hinv.
  unfold Run_closure.
  destruct (issue_contexts timeouts t w) as [t' w']. cbn [fst snd Nat.add] in Hinv.
  fold k in Hinv. destruct Hinv as (Hlen & Htake & Hslot & Hold).
  assert ((0 < k)%nat ->
          lastCtx t' = Some (length w + k - 1)%nat
          /\ is_cancelled (length w + k - 1) w' = false) as Hlast.
  { intros Hk. destruct (lastCtx t') as [p|]; [|lia].
    destruct Hslot as (_ & Hp & _ & Hlive).
    replace (length w + k - 1)%nat with p by lia. done. }
  split; [done|]. split; [done|]. split; [done|]. split; [done|]. split.
  - unfold cancel_last. destruct (lastCtx t') as [p|] eqn:Hlastctx.
    + destruct Hslot as (-> & Hp & Hk & Hlive). eexists. split; [reflexivity|].
      split.
      { unfold cancel. rewrite take_alter_ge by lia. done. }
      intros j Hj. destruct (decide (p = length w + j)%nat) as [->|Hne].
      * apply is_cancelled_cancel. lia.
      * rewrite is_cancelled_cancel_ne by done. apply Hold. lia.
    + eexists. split; [reflexivity|]. split; [done|]. intros j Hj. lia.
  - intros f. split; [done|]. intros Hk. by apply Hlast.
Qed.

Lemma Ctx_at_most_one_live_witness :
  let t := {| Context := 0%nat; Net := None; lastCtx := None; lastCancel := None |} in
  let w := [mkCtx None 0 false] in
  let k := length [10000; 2500; 10000] in
  let '(t', w') := issue_contexts [10000; 2500; 10000] t w in
  length w' = (length w + k)%nat
  /\ take (length w) w' = w
  /\ (forall j, (S j < k)%nat -> is_cancelled (length w + j) w' = true)
  /\ ((0 < k)%nat ->
      lastCtx t' = Some (length w + k - 1)%nat
      /\ is_cancelled (length w + k - 1) w' = false)
  /\ (exists w'',
        Run_closure [10000; 2500; 10000] BodyReturns t w = (Returned tt, t', w'')
        /\ take (length w) w'' = w
        /\ forall j, (j < k)%nat -> is_cancelled (length w + j) w'' = true)
  /\ (forall f,
        Run_closure [10000; 2500; 10000] (BodyGoexit f) t w = (FailNow f, t', w')
        /\ ((0 < k)%nat -> is_cancelled (length w + k - 1) w' = false)).
Proof.
  apply (Ctx_at_most_one_live [10000; 2500; 10000]
           {| Context := 0%nat; Net := None; lastCtx := None; lastCancel := None |}
           [mkCtx None 0 false]).
  reflexivity.
Defined.

Example Run_closure_failing_body_leaks :
  let t := {| Context := 0%nat; Net := None; lastCtx := None; lastCancel := None |} in
  let '(res, _, w') :=
    Run_closure [10000; 2500] (BodyGoexit (Fatal "boom")) t [mkCtx None 0 false] in
  res = FailNow (Fatal "boom")
  /\ is_cancelled 1 w' = true /\ is_cancelled 2 w' = false.
Proof. cbn. done. Qed.

(** ** RunTests: how many bodies run, and when the scheduler returns *)

Lemma sched_step_cur_bound root net a s :
  cur (sem s) <= Z.max 0 (size (sem s)) ->
  size (sem (sched_step root net a s)) = size (sem s)
  /\ cur (sem (sched_step root net a s)) <= Z.max 0 (size (sem s)).
Proof.
  intros Hcur. destruct a as [i| |]; cbn [sched_step].
  - destruct (tasks s !! i) as [t|]; [|done].
    destruct (task_step root net s t) as [[[t' sem'] done']|] eqn:Hstep; [|done].
    cbn [sem]. unfold task_step, Acquire, Release in Hstep.
    destruct (pc t) as [| | | | | |[]|];
      repeat (case_match; simplify_eq/=); simplify_eq/=;
      repeat match goal with
             | H : (_ >=? _) = true |- _ => rewrite Z.geb_leb, Z.leb_le in H
             end; lia.
  - repeat case_match; done.
  - done.
Qed.

Lemma in_flight_held n ts :
  Forall (task_inv n) ts ->
  2 * Z.of_nat (count_tasks in_flight ts) <= total_held ts.
Proof.
  induction 1 as [|t ts [Hc _] Hts IH]; cbn [count_tasks total_held]; [lia|].
  unfold counters_ok in Hc. unfold in_flight, held in *.
  destruct (pc t) as [| | | | | |[]|]; lia.
Qed.

(** X15: the concurrency bound that [RunTests] really enforces.  Under
    every schedule the semaphore holds between 0 and [Concurrency]
    permits (so [Release] never gives back more than was taken), and,
    each running body holding two permits, at most half of
    [Concurrency] test bodies are inside [t.Run] or waiting to report at
    any time. *)
Theorem RunTests_bounded_concurrency root params sched :
  let s := RunTests root params sched in
  size (sem s) = Concurrency params
  /\ 0 <= cur (sem s) <= Z.max 0 (Concurrency params)
  /\ 2 * Z.of_nat (count_tasks in_flight (tasks s)) <= Z.max 0 (Concurrency params).
Proof.
  intros s. destruct (RunTests_inv root params sched) as (Hsize & Hcur & Hall).
  fold s in Hsize, Hcur, Hall.
  assert (cur (sem s) <= Z.max 0 (Concurrency params)) as Hmax.
  { subst s. unfold RunTests.
    assert (size (sem (RunTests_init params)) = Concurrency params
            /\ cur (sem (RunTests_init params)) <= Z.max 0 (Concurrency params))
      as Hinit by (cbn; lia).
    revert Hinit. generalize (RunTests_init params). clear.
    induction sched as [|a sched IH]; intros s0 [Hs Hc]; cbn [foldl]; [done|].
    apply IH. rewrite <- Hs in Hc |- *.
    destruct (sched_step_cur_bound root (params_Devnet params) a s0 Hc) as [-> ?].
    done. }
  split; [done|]. split.
  - split; [|done]. rewrite Hcur. by eapply total_held_nonneg.
  - pose proof (in_flight_held _ _ Hall). lia.
Qed.

Lemma count_tasks_insert p ts i t t' :
  ts !! i = Some t ->
  (count_tasks p (<[i := t']> ts) + (if p t then 1 else 0)
   = count_tasks p ts + (if p t' then 1 else 0))%nat.
Proof.
  revert i. induction ts as [|t0 ts IH]; intros [|i] Hi; simpl in *; try done.
  - inversion Hi; subst. repeat case_match; lia.
  - specialize (IH _ Hi). repeat case_match; lia.
Qed.

Lemma count_tasks_le p ts : (count_tasks p ts <= length ts)%nat.
Proof. induction ts as [|t ts IH]; cbn; [lia|]. destruct (p t); lia. Qed.

Lemma count_tasks_all p ts :
  (length ts <= count_tasks p ts)%nat -> Forall (fun t => p t = true) ts.
Proof.
  induction ts as [|t ts IH]; cbn; [constructor|].
  pose proof (count_tasks_le p ts). destruct (p t) eqn:Hp; [|lia].
  intros Hle. constructor; [done|]. apply IH. lia.
Qed.

Lemma sched_step_returns_ok root net n a s :
  sched_inv n s -> returns_ok s -> returns_ok (sched_step root net a s).
Proof.
  intros (_ & _ & Hall) [Hdone Hret]. destruct a as [i| |]; cbn [sched_step].
  - destruct (tasks s !! i) as [t|] eqn:Hi; [|done].
    destruct (task_step root net s t) as [[[t' sem'] done']|] eqn:Hstep; [|done].
    pose proof (Forall_lookup_1 _ _ _ _ Hall Hi) as [Hc _].
    unfold returns_ok. cbn [done tasks main_returned ctx_done].
    rewrite length_insert.
    unfold task_step, Acquire in Hstep. unfold counters_ok in Hc.
    destruct (pc t) as [| | | | | |[]|] eqn:Hpc;
      repeat (case_match; simplify_eq/=); simplify_eq/=;
      destruct Hc as (? & ? & Hran) || destruct Hc as (? & [(? & Hran)|(? & Hran)]);
      match goal with
      | |- context [<[i := ?t']> _] =>
        pose proof (count_tasks_insert has_sent _ _ _ t' Hi) as Hins
      end;
      repeat match type of Hins with
             | context [has_sent ?x] =>
               change (has_sent x)
                 with (ran x && match pc x with
                                | PcExit true | PcDone => true
                                | _ => false
                                end) in Hins
             end;
      cbn [ran pc] in Hins; rewrite Hpc, ?Hran in Hins; cbn [andb] in Hins;
      rewrite ?Hran;
      (split; [lia|intros Hm; destruct (Hret Hm); [by left|right; lia]]).
  - unfold returns_ok. destruct (done s <? length (tasks s))%nat eqn:Hlt.
    + destruct (ctx_done s) eqn:Hctx; cbn [done tasks main_returned ctx_done].
      * split; [done|]. by left.
      * rewrite Hctx. by split.
    + cbn [done tasks main_returned ctx_done]. split; [done|]. intros _. right.
      by apply Nat.ltb_ge in Hlt.
  - unfold returns_ok. cbn [done tasks main_returned ctx_done].
    split; [done|]. by left.
Qed.

Lemma RunTests_returns_ok root params sched :
  returns_ok (RunTests root params sched)
  /\ length (tasks (RunTests root params sched)) = length (Tests params).
Proof.
  unfold RunTests.
  assert (sched_inv (Concurrency params) (RunTests_init params)
          /\ returns_ok (RunTests_init params)
          /\ length (tasks (RunTests_init params)) = length (Tests params))
    as Hinit.
  { split; [apply init_inv|]. unfold returns_ok, RunTests_init; cbn.
    rewrite length_map. split; [|done]. split; [|done].
    induction (Tests params) as [|x l IH]; cbn; [done|]. by rewrite <- IH. }
  revert Hinit. generalize (RunTests_init params).
  induction sched as [|a sched IH]; intros s (Hinv & Hret & Hlen); cbn [foldl];
    [done|].
  apply IH. split; [by apply sched_step_inv|].
  split; [by eapply sched_step_returns_ok|].
  rewrite <- Hlen. destruct a as [i| |]; cbn [sched_step]; repeat case_match;
    cbn; by rewrite ?length_insert.
Qed.

(** X16: when [RunTests] returns.  Under every schedule the count it
    keeps is the number of tests that have reported on the channel, and
    if its loop has returned while the context was not done, then every
    test has run its body and reported. *)
Theorem RunTests_returns_when_done root params sched :
  let s := RunTests root params sched in
  main_returned s = true -> ctx_done s = false ->
  done s = length (Tests params)
  /\ Forall (fun t => ran t = true) (tasks s).
Proof.
  intros s Hret Hctx.
  destruct (RunTests_returns_ok root params sched) as [[Hdone Himp] Hlen].
  fold s in Hdone, Himp, Hlen.
  destruct (Himp Hret) as [Hc|Hle]; [congruence|].
  pose proof (count_tasks_le has_sent (tasks s)) as Hmax.
  split; [lia|].
  assert (Forall (fun t => has_sent t = true) (tasks s)) as Hall
    by (apply count_tasks_all; lia).
  eapply Forall_impl; [exact Hall|]. intros t Ht. unfold has_sent in Ht.
  by destruct (ran t).
Qed.

Lemma RunTests_returns_when_done_witness :
  let s := RunTests 0 (mkParams sample_devnet [mkTestSpec "t" ""] 2)
             (replicate 6 (ActTask 0) ++ [ActMain]) in
  done s = length [mkTestSpec "t" ""]
  /\ Forall (fun t => ran t = true) (tasks s).
Proof.
  apply (RunTests_returns_when_done 0 (mkParams sample_devnet [mkTestSpec "t" ""] 2)
           (replicate 6 (ActTask 0) ++ [ActMain])); reflexivity.
Defined.

(** X17: a test that is abandoned.  If the loop of [RunTests] has
    returned (the context was cancelled) while a test that ran its body
    waits to send on [doneCh], that goroutine never takes another step,
    whatever happens afterwards: it stays at the send, its deferred
    [Release] never runs, and the permits it holds stay taken. *)
Theorem RunTests_abandoned_sender root params sched1 sched2 i t :
  let s1 := RunTests root params sched1 in
  main_returned s1 = true -> tasks s1 !! i = Some t -> pc t = PcSend ->
  let s2 := RunTests root params (sched1 ++ sched2) in
  tasks s2 !! i = Some t /\ main_returned s2 = true
  /\ held t = 2 /\ 2 <= cur (sem s2).
Proof.
  intros s1 Hret Hi Hpc s2.
  assert (tasks s2 !! i = Some t /\ main_returned s2 = true) as [Hi2 Hret2].
  { subst s1 s2. unfold RunTests in *. rewrite foldl_app.
    revert Hret Hi. generalize (foldl (fun s a => sched_step root (params_Devnet params) a s)
                                  (RunTests_init params) sched1).
    induction sched2 as [|a sched2 IH]; intros s Hret Hi; cbn [foldl]; [done|].
    apply IH.
    - destruct a as [j| |]; cbn [sched_step]; repeat case_match; done.
    - destruct a as [j| |]; cbn [sched_step]; try (repeat case_match; done).
      destruct (tasks s !! j) as [tj|] eqn:Hj; [|done].
      destruct (decide (j = i)) as [->|Hne].
      + assert (tj = t) as -> by congruence.
        unfold task_step. rewrite Hpc, Hret. cbn. done.
      + destruct (task_step _ _ s tj) as [[[t' sem'] done']|]; [|done].
        cbn [tasks]. by rewrite list_lookup_insert_ne. }
  split; [done|]. split; [done|].
  destruct (RunTests_inv root params (sched1 ++ sched2)) as (_ & Hcur & Hall).
  fold s2 in Hcur, Hall.
  pose proof (Forall_lookup_1 _ _ _ _ Hall Hi2) as [Hc _].
  pose proof (held_le_total _ _ _ _ Hall Hi2) as Hle.
  unfold counters_ok in Hc. rewrite Hpc in Hc. unfold held in *. lia.
Qed.

Lemma RunTests_abandoned_sender_witness :
  let params := mkParams sample_devnet [mkTestSpec "t" ""] 2 in
  let sched1 := replicate 5 (ActTask 0) ++ [ActCancel; ActMain] in
  let sched2 := [ActTask 0; ActMain; ActTask 0] in
  let t := mkTask PcSend (Some (mkTestEnv 0 (Some sample_devnet) None None)) 2 0 true in
  let s2 := RunTests 0 params (sched1 ++ sched2) in
  tasks s2 !! 0%nat = Some t /\ main_returned s2 = true
  /\ held t = 2 /\ 2 <= cur (sem s2).
Proof.
  apply (RunTests_abandoned_sender 0
           (mkParams sample_devnet [mkTestSpec "t" ""] 2)
           (replicate 5 (ActTask 0) ++ [ActCancel; ActMain])
           [ActTask 0; ActMain; ActTask 0] 0%nat
           (mkTask PcSend (Some (mkTestEnv 0 (Some sample_devnet) None None)) 2 0 true));
    reflexivity.
Defined.

(** ** LoggingRoundTrip is transparent *)


Example RoundTrip_logs_trimmed :
  RoundTrip (fun b => take 1 b)
    (fun req => (Some (mkResponse "200 OK"%string (Some (inr [Byte.x05; Byte.x20]))),
                 None))
    (mkRequest "POST /"%string (Some (inr [Byte.x01; Byte.x0a])))
  = (Returned (Some (mkResponse "200 OK"%string (Some (inr [Byte.x05; Byte.x20]))),
               None),
     [RtCloseRequestBody; RtLogf ">>  %s" [Byte.x01];
      RtInner (mkRequest "POST /"%string (Some (inr [Byte.x01; Byte.x0a])));
      RtLogf "<<  %s" [Byte.x05]; RtCloseResponseBody]).
Proof. reflexivity. Qed.

Example RoundTrip_without_body_panics :
  RoundTrip (fun b => b) (fun req => (None, Some ErrCanceled))
            (mkRequest "GET /"%string None)
  = (Panicked NilDereference, []).
Proof. reflexivity. Qed.

(** ** The Devnet: the client index *)

(** X19: how the engine-adding operations treat the index of the client
    type.  [AddL1ELNode] ends the test when there is no L1 client type at
    all, but an index past the last client type makes it panic with an
    index out of range; [AddL2ELNode] has no check and panics in both
    cases.  In each of these runs no container is started and the Devnet
    is unchanged. *)
Theorem AddELNode_client_index Idx a1 a2 d :
  (L1 (clients d) = [] ->
   AddL1ELNode Idx a1 d = (FailNow (Fatal "no eth1 client types found"), d, []))
  /\ (L1 (clients d) <> [] -> (length (L1 (clients d)) <= Idx)%nat ->
      AddL1ELNode Idx a1 d = (Panicked IndexOutOfRange, d, []))
  /\ ((length (L2 (clients d)) <= Idx)%nat ->
      (forall m, m ∈ l2Engines d -> exists url, enode_url a2 m = inr url) ->
      exists log,
        AddL2ELNode Idx a2 d = (Panicked IndexOutOfRange, d, log)
        /\ Forall (fun e => ~ is_l2_start e) log
        /\ lock_depth log = 0).
Proof.
  split; [|split].
  - intros Hnone. unfold AddL1ELNode, bind, get, fatal. by rewrite Hnone.
  - intros Hsome Hidx. unfold AddL1ELNode, bind, get, throw.
    destruct (L1 (clients d)) as [|def defs] eqn:HL1; [done|].
    cbn [length Nat.eqb]. by rewrite (lookup_ge_None_2 _ _ Hidx).
  - intros Hidx Hall. unfold AddL2ELNode.
    pose proof (collect_bootnodes_log (enode_url a2) (l2Engines d)) as [Hdepth Hns].
    destruct (collect_bootnodes_ok _ _ Hall) as (urls & Hres & _).
    destruct (collect_bootnodes (enode_url a2) (l2Engines d)) as [boot log1].
    cbn [fst snd] in *. subst boot.
    rewrite (lookup_ge_None_2 _ _ Hidx). eexists. split; [reflexivity|].
    split.
    + constructor; [cbn; tauto|]. apply Forall_app. split; [done|].
      constructor; [cbn; tauto|constructor].
    + cbn [lock_depth]. rewrite lock_depth_app. cbn. lia.
Qed.

Lemma AddELNode_client_index_witness :
  let a1 := mkL1Answers (Some 10) None (Some 11) (Some (mkExecInfo 0), None) in
  let a2 := mkL2Answers (fun _ => inr "enode://a"%string) (Some 21) None in
  (L1 (clients sample_devnet) = [] ->
   AddL1ELNode 1 a1 sample_devnet
   = (FailNow (Fatal "no eth1 client types found"), sample_devnet, []))
  /\ AddL1ELNode 1 a1 sample_devnet = (Panicked IndexOutOfRange, sample_devnet, [])
  /\ exists log,
       AddL2ELNode 1 a2 sample_devnet = (Panicked IndexOutOfRange, sample_devnet, log)
       /\ Forall (fun e => ~ is_l2_start e) log
       /\ lock_depth log = 0.
Proof.
  intros a1 a2.
  destruct (AddELNode_client_index 1 a1 a2 sample_devnet) as (H1 & H2 & H3).
  split; [exact H1|]. split.
  - apply H2; [discriminate|cbn; lia].
  - apply H3; [cbn; lia|]. intros m Hm. by eexists.
Defined.
